(** * Edge-relay payload recovery and the arithmetic demo module

    A shallow embedding of

    - [sdn-js/src/wasm-src/edge-relays.cpp]: the ChaCha20 block function, the
      chunked keystream XOR, the lazily filled payload cache and the relay
      counter;
    - [demo/demo.c]: the arithmetic operations and the version accessors.

    Both files are built for wasm32: bytes are 8 bits, [uint32_t] and [size_t]
    are 32 bits wide, memory is little-endian.  Machine integers are
    integers of [Z] with the wrap-around written at every operation that can
    leave the range (the loop counters of [demo.c] are discussed with their
    loops).  Arrays are lists, read with [!!!] and written with
    [<[i:=v]>]; every read the program performs under the stated
    preconditions is in range (an out-of-range read is undefined in C, and
    the value [!!!] yields there is never relied upon). *)

From Stdlib Require Import Factorial.
From stdpp Require Import base numbers list list_numbers option.

Local Open Scope Z_scope.

(** ** Machine integers *)

Definition uint8 (z : Z) : Z := z `mod` 2 ^ 8.
Definition uint32 (z : Z) : Z := z `mod` 2 ^ 32.
(** [size_t] on wasm32. *)
Definition size_t (z : Z) : Z := z `mod` 2 ^ 32.
(** Signed types, two's complement wrap-around. *)
Definition int32 (z : Z) : Z := (z + 2 ^ 31) `mod` 2 ^ 32 - 2 ^ 31.
Definition int64 (z : Z) : Z := (z + 2 ^ 63) `mod` 2 ^ 64 - 2 ^ 63.

Definition is_uint8 (z : Z) : Prop := 0 ≤ z < 2 ^ 8.
Definition is_uint32 (z : Z) : Prop := 0 ≤ z < 2 ^ 32.

(** ** Counted loops

    [for (int i = 0; i < n; i++) body] over a state [s]. *)

Definition for_loop {S : Type} (n : nat) (body : nat → S → S) (s : S) : S :=
  foldl (λ s i, body i s) s (seq 0 n).

(** ** Reinterpreting memory

    A [uint32_t] array seen through a [uint8_t*], little-endian: word [w]
    holds bytes [4w .. 4w+3], least significant first. *)

Definition bytes_of_words (ws : list Z) : list Z :=
  ws ≫= Z_to_little_endian 4 8.

(** [memcpy(&dst[word], src, n)] into a [uint32_t] array, for [n] a multiple
    of 4: word [word + w] receives the bytes [src[4w .. 4w+3]]. *)
Definition memcpy_words (dst : list Z) (word : nat) (src : list Z) (n : nat)
  : list Z :=
  for_loop (n `div` 4)
    (λ w dst,
      <[(word + w)%nat := little_endian_to_Z 8 (take 4 (drop (4 * w) src))]> dst)
    dst.

(** ** ChaCha20 *)

Module ChaCha.

(** The macro of lines 17-21; its arguments are the array cells
    [output[a]], [output[b]], [output[c]], [output[d]]. *)
Definition QUARTERROUND (a b c d : nat) (output : list Z) : list Z :=
  let x := output in
  let x := <[a := uint32 (x !!! a + x !!! b)]> x in
  let x := <[d := Z.lxor (x !!! d) (x !!! a)]> x in
  let x := <[d := Z.lor (uint32 (x !!! d ≪ 16)) (x !!! d ≫ 16)]> x in
  let x := <[c := uint32 (x !!! c + x !!! d)]> x in
  let x := <[b := Z.lxor (x !!! b) (x !!! c)]> x in
  let x := <[b := Z.lor (uint32 (x !!! b ≪ 12)) (x !!! b ≫ 20)]> x in
  let x := <[a := uint32 (x !!! a + x !!! b)]> x in
  let x := <[d := Z.lxor (x !!! d) (x !!! a)]> x in
  let x := <[d := Z.lor (uint32 (x !!! d ≪ 8)) (x !!! d ≫ 24)]> x in
  let x := <[c := uint32 (x !!! c + x !!! d)]> x in
  let x := <[b := Z.lxor (x !!! b) (x !!! c)]> x in
  <[b := Z.lor (uint32 (x !!! b ≪ 7)) (x !!! b ≫ 25)]> x.

(** The body of the round loop, lines 23-30. *)
Definition round_body (output : list Z) : list Z :=
  let output := QUARTERROUND 0 4 8 12 output in
  let output := QUARTERROUND 1 5 9 13 output in
  let output := QUARTERROUND 2 6 10 14 output in
  let output := QUARTERROUND 3 7 11 15 output in
  let output := QUARTERROUND 0 5 10 15 output in
  let output := QUARTERROUND 1 6 11 12 output in
  let output := QUARTERROUND 2 7 8 13 output in
  QUARTERROUND 3 4 9 14 output.

(** [chacha20_block(output, input)]: the result is the content of [output]
    on return. *)
Definition chacha20_block (output input : list Z) : list Z :=
  let output := for_loop 16 (λ i out, <[i := input !!! i]> out) output in
  let output := for_loop 10 (λ _ out, round_body out) output in
  for_loop 16 (λ i out, <[i := uint32 (out !!! i + input !!! i)]> out) output.

(** The state of lines 38-44, before the chunk loop. *)
Definition initial_state (key nonce : list Z) : list Z :=
  let state :=
    [0x61707865; 0x3320646e; 0x79622d32; 0x6b206574;
     0; 0; 0; 0; 0; 0; 0; 0; 0; 0; 0; 0] in
  let state := memcpy_words state 4 key 32 in
  memcpy_words state 14 nonce 8.

(** The inner loop of lines 51-53, for the chunk that starts at [i]. *)
Definition xor_chunk (input keystream : list Z) (i : Z) (chunk : nat)
    (output : list Z) : list Z :=
  for_loop chunk
    (λ j out,
      <[Z.to_nat (i + Z.of_nat j) :=
          uint8 (Z.lxor (input !!! Z.to_nat (i + Z.of_nat j))
                        (bytes_of_words keystream !!! j))]> out)
    output.

(** The chunk loop of lines 47-54.  [i] is a [size_t]; the loop is run on
    fuel, [None] standing for a loop that has not exited yet. *)
Fixpoint chunk_loop (fuel : nat) (input : list Z) (len i : Z)
    (state keystream output : list Z) : option (list Z) :=
  match fuel with
  | O => None
  | S fuel =>
      if bool_decide (i < len) then
        let state := <[12%nat := uint32 (state !!! 12%nat + 1)]> state in
        let keystream := chacha20_block keystream state in
        let chunk := if bool_decide (size_t (len - i) < 64)
                     then size_t (len - i) else 64 in
        let output := xor_chunk input keystream i (Z.to_nat chunk) output in
        chunk_loop fuel input len (size_t (i + 64)) state keystream output
      else Some output
  end.

(** [chacha20_decrypt(output, input, len, key, nonce)].  [keystream] is an
    uninitialised local; [chacha20_block] writes all of it before it is
    read, it is taken zero-filled here.  For a [len] that buffers in a
    32-bit address space can have, the offset [i] does not wrap and the loop
    exits within [len / 64 + 1] iterations. *)
Definition chacha20_decrypt (fuel : nat) (output input : list Z) (len : Z)
    (key nonce : list Z) : option (list Z) :=
  let state := initial_state key nonce in
  let keystream := replicate 16 0 in
  chunk_loop fuel input len 0 state keystream output.

End ChaCha.

(** ** The embedded data and the payload cache *)

(** The generated header [edge-relays-data.h] is not among the sources: the
    three objects it declares are taken as parameters. *)
Record embedded_data : Type := {
  KEY_MATERIAL : list Z;
  ENCRYPTED_RELAYS : list Z;
  ENCRYPTED_RELAYS_LEN : Z
}.

(** A well-formed header: 64 bytes of key material, a blob
    [nonce(24) || ciphertext || tag(16)] of bytes, its length constant.  The
    blob and the buffer it is decrypted into live together in a 32-bit
    address space, hence the bound on the length. *)
Definition well_formed (D : embedded_data) : Prop :=
  length (KEY_MATERIAL D) = 64%nat ∧
  Forall is_uint8 (KEY_MATERIAL D) ∧
  Forall is_uint8 (ENCRYPTED_RELAYS D) ∧
  ENCRYPTED_RELAYS_LEN D = Z.of_nat (length (ENCRYPTED_RELAYS D)) ∧
  40 ≤ ENCRYPTED_RELAYS_LEN D < 2 ^ 31.

(** The global [cached_result], and a ghost counter of the executions of
    the decryption call of line 76 (not a program variable). *)
Record globals : Type := {
  cached_result : list Z;
  decrypt_runs : nat
}.

Definition initial_globals : globals :=
  {| cached_result := []; decrypt_runs := 0 |}.

(** The [std::string] built from a character pointer: the characters before
    the first zero. *)
Fixpoint string_of_c_str (p : list Z) : list Z :=
  match p with
  | [] => []
  | c :: p => if bool_decide (c = 0) then [] else c :: string_of_c_str p
  end.

(** [std::string::c_str()]: the characters and their terminator. *)
Definition c_str (s : list Z) : list Z := s ++ [0].

(** Lines 66-69. *)
Definition deobfuscate_key (material : list Z) : list Z :=
  for_loop 32
    (λ i key,
      <[i := uint8 (Z.lxor (material !!! i) (material !!! (32 + i)%nat))]> key)
    (replicate 32 0).

(** Lines 72-77: the buffer [decrypted] once its terminator is written.
    [new uint8_t[n]] is taken zero-filled; cells [0 .. ciphertext_len] are
    all written before [std::string] reads them. *)
Definition decrypt_embedded (D : embedded_data) : option (list Z) :=
  let key := deobfuscate_key (KEY_MATERIAL D) in
  let ciphertext := drop 24 (ENCRYPTED_RELAYS D) in
  let ciphertext_len := size_t (ENCRYPTED_RELAYS_LEN D - 24 - 16) in
  let decrypted := replicate (Z.to_nat (size_t (ciphertext_len + 1))) 0 in
  decrypted ←
    ChaCha.chacha20_decrypt (Z.to_nat (ciphertext_len `div` 64) + 2)
      decrypted ciphertext ciphertext_len key (ENCRYPTED_RELAYS D);
  Some (<[Z.to_nat ciphertext_len := 0]> decrypted).

(** [get_edge_relays()]: the characters the returned pointer designates, and
    the globals afterwards. *)
Definition get_edge_relays (D : embedded_data) (g : globals)
  : option (list Z * globals) :=
  if bool_decide (cached_result g ≠ []) then
    Some (c_str (cached_result g), g)
  else
    decrypted ← decrypt_embedded D;
    let g := {| cached_result := string_of_c_str decrypted;
                decrypt_runs := S (decrypt_runs g) |} in
    Some (c_str (cached_result g), g).

(** [n] calls in a row: what each returned, and the globals at the end. *)
Fixpoint call_get_edge_relays (D : embedded_data) (n : nat) (g : globals)
  : option (list (list Z) * globals) :=
  match n with
  | O => Some ([], g)
  | S n =>
      '(r, g) ← get_edge_relays D g;
      '(rs, g) ← call_get_edge_relays D n g;
      Some (r :: rs, g)
  end.

(** ** The relay counter *)

(** The loop of lines 92-98 from the pointer [p]; the slash is character 47
    and the double quote character 34.  [count] and [slashes] are [int]. *)
Fixpoint relay_scan (p : list Z) (count slashes : Z) : Z :=
  match p with
  | [] => count
  | c :: p =>
      if bool_decide (c = 0) then count
      else
        let slashes := if bool_decide (c = 47) then int32 (slashes + 1)
                       else slashes in
        if bool_decide (c = 34) && bool_decide (0 < slashes)
        then relay_scan p (int32 (count + 1)) 0
        else relay_scan p count slashes
  end.

Definition get_relay_count (D : embedded_data) (g : globals)
  : option (Z * globals) :=
  '(json, g) ← get_edge_relays D g;
  Some (relay_scan json 0 0, g).

(** ** demo.c *)

Module Demo.

(** Line 13: the characters of [sdn-demo-v1.0.0] and their terminator. *)
Definition VERSION : list Z :=
  [115; 100; 110; 45; 100; 101; 109; 111; 45; 118; 49; 46; 48; 46; 48; 0].

(** Lines 17-19 and 23-25, on [int32_t]. *)
Definition demo_add (a b : Z) : Z := int32 (a + b).
Definition demo_multiply (a b : Z) : Z := int32 (a * b).

(** Loop counters.  [i++] on an [int32_t] counter that runs up to [n] can
    overflow at [n = 2^31 - 1] only, on the increment that follows the last
    iteration; C leaves that increment undefined and gives it no wrap-around.
    The counter is therefore kept as the integer it counts: for every other
    [n] it stays an [int32_t], and a loop runs the [n - 1] iterations its
    bounds say.  The data ([tmp], [result]) wrap, as the operations on them
    do. *)

(** The loop of lines 33-37; [i], [a], [b] and [tmp] are [int32_t]. *)
Fixpoint fibonacci_loop (fuel : nat) (n i a b : Z) : option Z :=
  match fuel with
  | O => None
  | S fuel =>
      if bool_decide (i ≤ n) then
        let tmp := int32 (a + b) in
        let a := b in
        let b := tmp in
        fibonacci_loop fuel n (i + 1) a b
      else Some b
  end.

Definition demo_fibonacci (fuel : nat) (n : Z) : option Z :=
  if bool_decide (n ≤ 0) then Some 0
  else if bool_decide (n = 1) then Some 1
  else fibonacci_loop fuel n 2 0 1.

(** The loop of lines 46-48; [i] is [int32_t], [result] is [int64_t]. *)
Fixpoint factorial_loop (fuel : nat) (n i result : Z) : option Z :=
  match fuel with
  | O => None
  | S fuel =>
      if bool_decide (i ≤ n)
      then factorial_loop fuel n (i + 1) (int64 (result * i))
      else Some result
  end.

Definition demo_factorial (fuel : nat) (n : Z) : option Z :=
  if bool_decide (n < 0) then Some (-1)
  else factorial_loop fuel n 2 1.

(** Line 55: the pointer returned designates [VERSION]. *)
Definition demo_version : list Z := VERSION.

(** The loop of line 62 over a character array; [len] is [int32_t]. *)
Fixpoint version_len_loop (fuel : nat) (version : list Z) (len : Z)
  : option Z :=
  match fuel with
  | O => None
  | S fuel =>
      if bool_decide (version !!! Z.to_nat len ≠ 0)
      then version_len_loop fuel version (int32 (len + 1))
      else Some len
  end.

Definition demo_version_len (fuel : nat) : option Z :=
  version_len_loop fuel VERSION 0.

End Demo.

(** ** Reference definitions, in the words of the specification *)

Module Reference.

Definition add32 (a b : Z) : Z := (a + b) `mod` 2 ^ 32.

(** Rotation to the left of a 32-bit word by [n] positions. *)
Definition rotl (x n : Z) : Z :=
  (x * 2 ^ n) `mod` 2 ^ 32 + x `div` 2 ^ (32 - n).

(** [a+=b; d^=a; d=rotl(d,16); c+=d; b^=c; b=rotl(b,12);
     a+=b; d^=a; d=rotl(d,8); c+=d; b^=c; b=rotl(b,7)]. *)
Definition quarter_round (q : Z * Z * Z * Z) : Z * Z * Z * Z :=
  let '(a, b, c, d) := q in
  let a := add32 a b in let d := Z.lxor d a in let d := rotl d 16 in
  let c := add32 c d in let b := Z.lxor b c in let b := rotl b 12 in
  let a := add32 a b in let d := Z.lxor d a in let d := rotl d 8 in
  let c := add32 c d in let b := Z.lxor b c in let b := rotl b 7 in
  (a, b, c, d).

(** A quarter-round over the group of words [i], [j], [k], [l]. *)
Definition quarter_round_at (i j k l : nat) (s : list Z) : list Z :=
  let '(a, b, c, d) := quarter_round (s !!! i, s !!! j, s !!! k, s !!! l) in
  <[l := d]> (<[k := c]> (<[j := b]> (<[i := a]> s))).

Definition column_round (s : list Z) : list Z :=
  quarter_round_at 3 7 11 15
    (quarter_round_at 2 6 10 14
      (quarter_round_at 1 5 9 13
        (quarter_round_at 0 4 8 12 s))).

Definition diagonal_round (s : list Z) : list Z :=
  quarter_round_at 3 4 9 14
    (quarter_round_at 2 7 8 13
      (quarter_round_at 1 6 11 12
        (quarter_round_at 0 5 10 15 s))).

Definition double_round (s : list Z) : list Z :=
  diagonal_round (column_round s).

(** Ten double rounds, then the feed-forward addition. *)
Definition block (input : list Z) : list Z :=
  zip_with add32 (Nat.iter 10 double_round input) input.

(** The keystream of a message: block [k] (0-based) is generated from the
    state whose counter word is [k + 1]. *)
Definition keystream_block (key nonce : list Z) (k : Z) : list Z :=
  bytes_of_words
    (ChaCha.chacha20_block (replicate 16 0)
       (<[12%nat := k + 1]> (ChaCha.initial_state key nonce))).

(** The record-count heuristic on unbounded counters: the pair is
    [(slashes, result)]. *)
Definition estimate_step (st : Z * Z) (c : Z) : Z * Z :=
  let '(slashes, result) := st in
  let slashes := if bool_decide (c = 47) then slashes + 1 else slashes in
  if bool_decide (c = 34 ∧ 0 < slashes) then (0, result + 1)
  else (slashes, result).

Definition estimate_count (text : list Z) : Z :=
  snd (foldl estimate_step (0, 0) text).

(** [2 * 3 * ... * n]. *)
Definition product_upto (n : Z) : Z :=
  foldl Z.mul 1 (seqZ 2 (n - 1)).

(** The Fibonacci numbers. *)
Fixpoint fib (n : nat) : Z :=
  match n with
  | O => 0
  | S n' => match n' with
            | O => 1
            | S n'' => fib n' + fib n''
            end
  end.

(** How many characters of [text] are [c]. *)
Definition occurrences (c : Z) (text : list Z) : Z :=
  Z.of_nat (length (filter (λ x, x = c) text)).

End Reference.

(** ** Concrete headers

    Key material whose halves cancel to the all-zero key and an all-zero
    nonce field; the first keystream bytes are then [159; 7; 231]. *)

Definition header_with (ciphertext : list Z) : embedded_data :=
  {| KEY_MATERIAL := replicate 64 0;
     ENCRYPTED_RELAYS := replicate 24 0 ++ ciphertext ++ replicate 16 0;
     ENCRYPTED_RELAYS_LEN := 40 + Z.of_nat (length ciphertext) |}.

(** Decrypts to a zero byte followed by ["ab"]. *)
Definition header_leading_zero : embedded_data := header_with [159; 102; 133].

(** Decrypts to ["a"], a zero byte, ["b"]. *)
Definition header_inner_zero : embedded_data := header_with [254; 7; 133].

(** Decrypts to ["abc"]. *)
Definition header_abc : embedded_data := header_with [254; 101; 132].

(** Differs from [header_abc] in bytes 8 to 23 of the nonce field and in the
    tag only. *)
Definition header_other_padding : embedded_data :=
  {| KEY_MATERIAL := replicate 64 0;
     ENCRYPTED_RELAYS :=
       [0; 0; 0; 0; 0; 0; 0; 0;
        1; 2; 3; 4; 5; 6; 7; 8; 9; 10; 11; 12; 13; 14; 15; 16;
        254; 101; 132;
        100; 101; 102; 103; 104; 105; 106; 107; 108; 109; 110; 111; 112; 113;
        114; 115];
     ENCRYPTED_RELAYS_LEN := 43 |}.

(** ** Views used by the proofs *)

(** The text the deobfuscate-decrypt pipeline produces. *)
Definition payload (D : embedded_data) : option (list Z) :=
  string_of_c_str <$> decrypt_embedded D.

(** What the chunk loop has established once the first [n] bytes are done:
    those bytes are the input XOR the keystream, the others are untouched. *)
Definition decrypted_to (key nonce input output0 : list Z) (n : nat)
    (out : list Z) : Prop :=
  length out = length output0 ∧
  ∀ j : nat,
    out !! j =
      if decide (j < n ∧ j < length output0)%nat
      then Some (uint8 (Z.lxor (input !!! j)
             (Reference.keystream_block key nonce (Z.of_nat (j `div` 64))
                !!! (j `mod` 64)%nat)))
      else output0 !! j.

(** A state of the block function: 16 words of 32 bits. *)
Definition state16 (s : list Z) : Prop :=
  length s = 16%nat ∧ Forall is_uint32 s.

(** Four distinct cells of an array. *)
Definition group (a b c d : nat) (x : list Z) : Prop :=
  (a ≠ b ∧ a ≠ c ∧ a ≠ d ∧ b ≠ c ∧ b ≠ d ∧ c ≠ d) ∧
  (a < length x ∧ b < length x ∧ c < length x ∧ d < length x)%nat.

(** The array [x] with the cells of a group set to the components of [q]. *)
Definition put4 (a b c d : nat) (q : Z * Z * Z * Z) (x : list Z) : list Z :=
  let '(va, vb, vc, vd) := q in
  <[d := vd]> (<[c := vc]> (<[b := vb]> (<[a := va]> x))).

(** The three kinds of statement of the quarter-round macro. *)
Definition qr_add (t s : nat) (x : list Z) : list Z :=
  <[t := uint32 (x !!! t + x !!! s)]> x.
Definition qr_xor (t s : nat) (x : list Z) : list Z :=
  <[t := Z.lxor (x !!! t) (x !!! s)]> x.
Definition qr_rot (t : nat) (n m : Z) (x : list Z) : list Z :=
  <[t := Z.lor (uint32 (x !!! t ≪ n)) (x !!! t ≫ m)]> x.

Import ChaCha.

(** * Proofs *)

(** ** Machine integers *)

Lemma uint32_is_uint32 z : is_uint32 (uint32 z).
Proof. unfold is_uint32, uint32. apply Z.mod_pos_bound. lia. Qed.

Lemma uint8_is_uint8 z : is_uint8 (uint8 z).
Proof. unfold is_uint8, uint8. apply Z.mod_pos_bound. lia. Qed.

Lemma uint32_small z : is_uint32 z → uint32 z = z.
Proof. unfold is_uint32, uint32. intros. by apply Z.mod_small. Qed.

Lemma uint8_small z : is_uint8 z → uint8 z = z.
Proof. unfold is_uint8, uint8. intros. by apply Z.mod_small. Qed.

Lemma lxor_bounded k a b :
  0 ≤ k → 0 ≤ a < 2 ^ k → 0 ≤ b < 2 ^ k → 0 ≤ Z.lxor a b < 2 ^ k.
Proof.
  intros Hk Ha Hb.
  assert (0 ≤ Z.lxor a b) as Hnn by (apply Z.lxor_nonneg; lia).
  apply Z.bounded_iff_bits_nonneg'; [done..|].
  intros l Hl. rewrite Z.lxor_spec.
  rewrite (proj1 (Z.bounded_iff_bits_nonneg' k a Hk (proj1 Ha)) Ha l Hl).
  by rewrite (proj1 (Z.bounded_iff_bits_nonneg' k b Hk (proj1 Hb)) Hb l Hl).
Qed.

Lemma lxor_is_uint32 a b : is_uint32 a → is_uint32 b → is_uint32 (Z.lxor a b).
Proof. apply lxor_bounded. lia. Qed.

Lemma lxor_is_uint8 a b : is_uint8 a → is_uint8 b → is_uint8 (Z.lxor a b).
Proof. apply lxor_bounded. lia. Qed.

Lemma lxor_cancel_r a k : Z.lxor (Z.lxor a k) k = a.
Proof. by rewrite Z.lxor_assoc, Z.lxor_nilpotent, Z.lxor_0_r. Qed.

(** The two shifts of a rotation have no bit in common. *)
Lemma rotl_halves_disjoint x n :
  is_uint32 x → 0 < n < 32 →
  Z.land ((x * 2 ^ n) `mod` 2 ^ 32) (x `div` 2 ^ (32 - n)) = 0.
Proof.
  intros Hx Hn. apply Z.bits_inj_iff'. intros i Hi.
  rewrite Z.land_spec, Z.bits_0.
  destruct (decide (i < n)) as [Hlt|Hge].
  - rewrite Z.mod_pow2_bits_low by lia.
    by rewrite Z.mul_pow2_bits_low by lia.
  - rewrite Z.div_pow2_bits by lia.
    rewrite (proj1 (Z.bounded_iff_bits_nonneg' 32 x ltac:(lia) (proj1 Hx)) Hx)
      by lia.
    apply andb_false_r.
Qed.

Lemma rotl_shift x n m :
  is_uint32 x → 0 < n < 32 → m = 32 - n →
  Z.lor (uint32 (x ≪ n)) (x ≫ m) = Reference.rotl x n.
Proof.
  intros Hx Hn ->. unfold uint32, Reference.rotl.
  rewrite Z.shiftl_mul_pow2, Z.shiftr_div_pow2 by lia.
  symmetry. by apply Z.add_nocarry_lor, rotl_halves_disjoint.
Qed.

Lemma rotl_is_uint32 x n :
  is_uint32 x → 0 < n < 32 → is_uint32 (Reference.rotl x n).
Proof.
  intros Hx Hn. unfold is_uint32, Reference.rotl in *.
  assert (2 ^ 32 = 2 ^ n * 2 ^ (32 - n)) as Hsplit
    by (rewrite <-Z.pow_add_r by lia; f_equal; lia).
  assert (0 < 2 ^ n) by (apply Z.pow_pos_nonneg; lia).
  assert (0 < 2 ^ (32 - n)) by (apply Z.pow_pos_nonneg; lia).
  set (hi := x `div` 2 ^ (32 - n)).
  set (lo := x `mod` 2 ^ (32 - n)).
  assert (x = 2 ^ (32 - n) * hi + lo) as Hdm by (apply Z.div_mod; lia).
  assert (0 ≤ lo < 2 ^ (32 - n)) by (apply Z.mod_pos_bound; lia).
  assert (0 ≤ hi < 2 ^ n).
  { split; [apply Z.div_pos; lia|]. apply Z.div_lt_upper_bound; lia. }
  assert ((x * 2 ^ n) `mod` 2 ^ 32 = lo * 2 ^ n) as ->.
  { symmetry. apply (Z.mod_unique_pos _ _ hi); [nia|]. rewrite Hsplit. rewrite Hdm at 1. ring. }
  nia.
Qed.

Lemma add32_is_uint32 a b : is_uint32 (Reference.add32 a b).
Proof. apply uint32_is_uint32. Qed.

(** ** Loops and arrays *)

Section loops.
Context {S : Type}.
Implicit Types (body : nat → S → S) (s : S).

Lemma for_loop_0 body s : for_loop 0 body s = s.
Proof. done. Qed.

Lemma for_loop_S n body s :
  for_loop (Datatypes.S n) body s = body n (for_loop n body s).
Proof. unfold for_loop. by rewrite seq_S, foldl_snoc. Qed.

Lemma for_loop_ext n body1 body2 s :
  (∀ i s', (i < n)%nat → body1 i s' = body2 i s') →
  for_loop n body1 s = for_loop n body2 s.
Proof.
  induction n as [|n IH]; intros Hext; [done|].
  rewrite !for_loop_S, IH by (intros; apply Hext; lia). apply Hext. lia.
Qed.

Lemma for_loop_invariant (P : S → Prop) n body s :
  P s → (∀ i s', (i < n)%nat → P s' → P (body i s')) → P (for_loop n body s).
Proof.
  intros Hs Hstep. induction n as [|n IH]; [done|].
  rewrite for_loop_S. apply Hstep; [lia|]. apply IH. intros. apply Hstep; [lia|done].
Qed.
End loops.

(** A loop that rewrites cell [off + i] from its own content. *)
Lemma for_loop_update_length (off n : nat) (h : nat → Z → Z) (out : list Z) :
  length (for_loop n (λ i o, <[(off + i)%nat := h i (o !!! (off + i)%nat)]> o) out)
  = length out.
Proof.
  apply (for_loop_invariant (λ o, length o = length out)); [done|].
  intros i o _ Ho. by rewrite length_insert.
Qed.

Lemma for_loop_update_lookup (off n : nat) (h : nat → Z → Z) (out : list Z) j :
  for_loop n (λ i o, <[(off + i)%nat := h i (o !!! (off + i)%nat)]> o) out !! j
  = if decide (off ≤ j < off + n ∧ j < length out)%nat
    then Some (h (j - off)%nat (out !!! j)) else out !! j.
Proof.
  induction n as [|n IH].
  { rewrite for_loop_0. case_decide; [lia|done]. }
  rewrite for_loop_S.
  rewrite list_lookup_insert, for_loop_update_length.
  destruct (decide (j = off + n)%nat) as [->|Hne].
  - destruct (decide (off + n < length out)%nat).
    + rewrite !decide_True by lia. do 2 f_equal; [lia|].
      rewrite !list_lookup_total_alt, IH. by rewrite decide_False by lia.
    + rewrite decide_False by lia. rewrite IH. by rewrite !decide_False by lia.
  - rewrite decide_False by lia. rewrite IH.
    destruct (decide (off ≤ j < off + n ∧ j < length out)%nat).
    + by rewrite decide_True by lia.
    + by rewrite decide_False by lia.
Qed.

Section quarter_round.

Lemma put4_length a b c d q x : length (put4 a b c d q x) = length x.
Proof. destruct q as [[[??]?]?]. simpl. by rewrite !length_insert. Qed.

Lemma put4_id a b c d x :
  put4 a b c d (x !!! a, x !!! b, x !!! c, x !!! d) x = x.
Proof.
  simpl.
  by rewrite (list_insert_id' x a), (list_insert_id' x b),
    (list_insert_id' x c), (list_insert_id' x d)
    by (intros; by apply list_lookup_lookup_total_lt).
Qed.

Variables (a b c d : nat) (x : list Z).
Hypothesis Hgrp : group a b c d x.

Lemma put4_get va vb vc vd :
  let y := put4 a b c d (va, vb, vc, vd) x in
  y !!! a = va ∧ y !!! b = vb ∧ y !!! c = vc ∧ y !!! d = vd.
Proof.
  destruct Hgrp as [(?&?&?&?&?&?) (?&?&?&?)]. simpl.
  repeat split.
  - rewrite !list_lookup_total_insert_ne by done.
    by rewrite list_lookup_total_insert_eq.
  - rewrite !list_lookup_total_insert_ne by done.
    by rewrite list_lookup_total_insert_eq by (by rewrite !length_insert).
  - rewrite !list_lookup_total_insert_ne by done.
    by rewrite list_lookup_total_insert_eq by (by rewrite !length_insert).
  - by rewrite list_lookup_total_insert_eq by (by rewrite !length_insert).
Qed.

Lemma put4_set_a va vb vc vd v :
  <[a := v]> (put4 a b c d (va, vb, vc, vd) x) = put4 a b c d (v, vb, vc, vd) x.
Proof.
  destruct Hgrp as [(?&?&?&?&?&?) _]. simpl.
  rewrite (list_insert_insert_ne _ a d), (list_insert_insert_ne _ a c),
    (list_insert_insert_ne _ a b) by done.
  by rewrite list_insert_insert_eq.
Qed.

Lemma put4_set_b va vb vc vd v :
  <[b := v]> (put4 a b c d (va, vb, vc, vd) x) = put4 a b c d (va, v, vc, vd) x.
Proof.
  destruct Hgrp as [(?&?&?&?&?&?) _]. simpl.
  rewrite (list_insert_insert_ne _ b d), (list_insert_insert_ne _ b c) by done.
  by rewrite list_insert_insert_eq.
Qed.

Lemma put4_set_c va vb vc vd v :
  <[c := v]> (put4 a b c d (va, vb, vc, vd) x) = put4 a b c d (va, vb, v, vd) x.
Proof.
  destruct Hgrp as [(?&?&?&?&?&?) _]. simpl.
  rewrite (list_insert_insert_ne _ c d) by done.
  by rewrite list_insert_insert_eq.
Qed.

Lemma put4_set_d va vb vc vd v :
  <[d := v]> (put4 a b c d (va, vb, vc, vd) x) = put4 a b c d (va, vb, vc, v) x.
Proof. simpl. by rewrite list_insert_insert_eq. Qed.

End quarter_round.

(** ** The quarter-round *)

Create HintDb u32 discriminated.
#[local] Hint Resolve uint32_is_uint32 lxor_is_uint32 rotl_is_uint32
  add32_is_uint32 : u32.
#[local] Hint Extern 1 (_ < _ < _) => lia : u32.

Lemma QUARTERROUND_steps a b c d x :
  QUARTERROUND a b c d x =
  qr_rot b 7 25 (qr_xor b c (qr_add c d (qr_rot d 8 24 (qr_xor d a (qr_add a b
    (qr_rot b 12 20 (qr_xor b c (qr_add c d (qr_rot d 16 16 (qr_xor d a
      (qr_add a b x))))))))))).
Proof. reflexivity. Qed.

Section quarter_round_steps.
Variables (a b c d : nat) (x : list Z).
Hypothesis Hgrp : group a b c d x.
Implicit Types va vb vc vd : Z.

Lemma qr_add_ab va vb vc vd :
  qr_add a b (put4 a b c d (va, vb, vc, vd) x)
  = put4 a b c d (Reference.add32 va vb, vb, vc, vd) x.
Proof.
  unfold qr_add. destruct (put4_get a b c d x Hgrp va vb vc vd) as (->&->&_).
  by apply put4_set_a.
Qed.

Lemma qr_add_cd va vb vc vd :
  qr_add c d (put4 a b c d (va, vb, vc, vd) x)
  = put4 a b c d (va, vb, Reference.add32 vc vd, vd) x.
Proof.
  unfold qr_add. destruct (put4_get a b c d x Hgrp va vb vc vd) as (_&_&->&->).
  by apply put4_set_c.
Qed.

Lemma qr_xor_da va vb vc vd :
  qr_xor d a (put4 a b c d (va, vb, vc, vd) x)
  = put4 a b c d (va, vb, vc, Z.lxor vd va) x.
Proof.
  unfold qr_xor. destruct (put4_get a b c d x Hgrp va vb vc vd) as (->&_&_&->).
  by apply put4_set_d.
Qed.

Lemma qr_xor_bc va vb vc vd :
  qr_xor b c (put4 a b c d (va, vb, vc, vd) x)
  = put4 a b c d (va, Z.lxor vb vc, vc, vd) x.
Proof.
  unfold qr_xor. destruct (put4_get a b c d x Hgrp va vb vc vd) as (_&->&->&_).
  by apply put4_set_b.
Qed.

Lemma qr_rot_d va vb vc vd n m :
  is_uint32 vd → 0 < n < 32 → m = 32 - n →
  qr_rot d n m (put4 a b c d (va, vb, vc, vd) x)
  = put4 a b c d (va, vb, vc, Reference.rotl vd n) x.
Proof.
  intros. unfold qr_rot.
  destruct (put4_get a b c d x Hgrp va vb vc vd) as (_&_&_&->).
  rewrite rotl_shift by done. by apply put4_set_d.
Qed.

Lemma qr_rot_b va vb vc vd n m :
  is_uint32 vb → 0 < n < 32 → m = 32 - n →
  qr_rot b n m (put4 a b c d (va, vb, vc, vd) x)
  = put4 a b c d (va, Reference.rotl vb n, vc, vd) x.
Proof.
  intros. unfold qr_rot.
  destruct (put4_get a b c d x Hgrp va vb vc vd) as (_&->&_&_).
  rewrite rotl_shift by done. by apply put4_set_b.
Qed.

Lemma QUARTERROUND_put4 va vb vc vd :
  is_uint32 va → is_uint32 vb → is_uint32 vc → is_uint32 vd →
  QUARTERROUND a b c d (put4 a b c d (va, vb, vc, vd) x)
  = put4 a b c d (Reference.quarter_round (va, vb, vc, vd)) x.
Proof.
  intros Ha Hb Hc Hd. rewrite QUARTERROUND_steps.
  rewrite qr_add_ab, qr_xor_da, (qr_rot_d _ _ _ _ 16 16) by auto with u32.
  rewrite qr_add_cd, qr_xor_bc, (qr_rot_b _ _ _ _ 12 20) by auto with u32.
  rewrite qr_add_ab, qr_xor_da, (qr_rot_d _ _ _ _ 8 24) by auto 7 with u32.
  rewrite qr_add_cd, qr_xor_bc, (qr_rot_b _ _ _ _ 7 25) by auto 7 with u32.
  reflexivity.
Qed.

Lemma quarter_round_is_uint32 va vb vc vd :
  is_uint32 va → is_uint32 vb → is_uint32 vc → is_uint32 vd →
  let '(a', b', c', d') := Reference.quarter_round (va, vb, vc, vd) in
  is_uint32 a' ∧ is_uint32 b' ∧ is_uint32 c' ∧ is_uint32 d'.
Proof. intros. simpl. split_and!; auto 9 with u32. Qed.

End quarter_round_steps.

Lemma state16_group a b c d s :
  state16 s → (a < 16)%nat → (b < 16)%nat → (c < 16)%nat → (d < 16)%nat →
  a ≠ b → a ≠ c → a ≠ d → b ≠ c → b ≠ d → c ≠ d →
  group a b c d s.
Proof. intros [Hlen _]. unfold group. rewrite Hlen. tauto. Qed.

Lemma state16_lookup s i : state16 s → (i < 16)%nat → is_uint32 (s !!! i).
Proof. intros [Hlen Hall] ?. apply Forall_lookup_total_1; [done|lia]. Qed.

Lemma QUARTERROUND_refines a b c d s :
  state16 s → group a b c d s →
  QUARTERROUND a b c d s = Reference.quarter_round_at a b c d s
  ∧ state16 (Reference.quarter_round_at a b c d s).
Proof.
  intros Hs Hgrp.
  assert (is_uint32 (s !!! a) ∧ is_uint32 (s !!! b) ∧
          is_uint32 (s !!! c) ∧ is_uint32 (s !!! d)) as (Ha&Hb&Hc&Hd).
  { destruct Hs as [_ Hall], Hgrp as [_ (?&?&?&?)].
    split_and!; by apply Forall_lookup_total_1. }
  split.
  - pose proof (QUARTERROUND_put4 a b c d s Hgrp _ _ _ _ Ha Hb Hc Hd) as Hq.
    by rewrite put4_id in Hq.
  - pose proof (quarter_round_is_uint32 _ _ _ _ Ha Hb Hc Hd) as Hq.
    unfold Reference.quarter_round_at.
    destruct (Reference.quarter_round _) as [[[a' b'] c'] d'].
    destruct Hq as (?&?&?&?), Hs as [Hlen Hall]. split.
    + by rewrite !length_insert.
    + by repeat apply Forall_insert.
Qed.

Ltac qr_next :=
  lazymatch goal with
  | Hs : state16 ?s |- context [QUARTERROUND ?a ?b ?c ?d ?s] =>
      let E := fresh "E" in
      let Hs' := fresh "Hs" in
      destruct (QUARTERROUND_refines a b c d s Hs) as [E Hs'];
      [ apply state16_group; (done || lia) | rewrite E; clear E Hs ]
  end.

Lemma round_body_refines s :
  state16 s →
  round_body s = Reference.double_round s ∧ state16 (Reference.double_round s).
Proof.
  intros Hs.
  unfold round_body, Reference.double_round, Reference.diagonal_round,
    Reference.column_round.
  cbv zeta. do 8 qr_next. done.
Qed.

Lemma rounds_refine n s :
  state16 s →
  for_loop n (λ _ out, round_body out) s = Nat.iter n Reference.double_round s
  ∧ state16 (Nat.iter n Reference.double_round s).
Proof.
  intros Hs. induction n as [|n [IHeq IHst]]; [done|].
  rewrite for_loop_S, IHeq. simpl. by apply round_body_refines.
Qed.

Lemma copy_loop (input output : list Z) n :
  length input = n → length output = n →
  for_loop n (λ i out, <[i := input !!! i]> out) output = input.
Proof.
  intros Hin Hout. apply list_eq. intros j.
  rewrite (for_loop_update_lookup 0 n (λ i _, input !!! i)).
  case_decide as Hj.
  - rewrite Nat.sub_0_r. symmetry. apply list_lookup_lookup_total_lt. lia.
  - rewrite !lookup_ge_None_2; [done|lia..].
Qed.

Lemma feed_forward_loop (input s : list Z) n :
  length input = n → length s = n →
  for_loop n (λ i out, <[i := uint32 (out !!! i + input !!! i)]> out) s
  = zip_with Reference.add32 s input.
Proof.
  intros Hin Hs. apply list_eq. intros j.
  rewrite (for_loop_update_lookup 0 n (λ i v, uint32 (v + input !!! i))).
  rewrite lookup_zip_with. case_decide as Hj.
  - rewrite Nat.sub_0_r.
    rewrite (list_lookup_lookup_total_lt s j), (list_lookup_lookup_total_lt input j)
      by lia.
    done.
  - by rewrite (lookup_ge_None_2 s j) by lia.
Qed.

Lemma chacha20_block_spec input output :
  length output = 16%nat → state16 input →
  chacha20_block output input = Reference.block input
  ∧ length (Reference.block input) = 16%nat.
Proof.
  intros Hout Hin. unfold chacha20_block, Reference.block.
  destruct (rounds_refine 10 input Hin) as [Hr [Hlen _]].
  rewrite copy_loop by (done || apply Hin). rewrite Hr.
  split.
  - apply feed_forward_loop; [apply Hin|done].
  - rewrite length_zip_with_l_eq; [done|]. rewrite Hlen. symmetry. apply Hin.
Qed.

(** C5: for every 16-word input state, [chacha20_block] yields the reference
    block: ten double rounds (four column quarter-rounds, then four diagonal
    ones, each quarter-round being the twelve add/xor/rotate steps modulo
    2^32), followed by the word-wise wrapping addition of the input state. *)
Theorem chacha20_block_reference (input output : list Z) :
  length input = 16%nat → length output = 16%nat → Forall is_uint32 input →
  chacha20_block output input = Reference.block input.
Proof. intros ???. by apply chacha20_block_spec. Qed.

Lemma chacha20_block_reference_witness :
  chacha20_block (replicate 16 0) (seqZ 1 16) = Reference.block (seqZ 1 16).
Proof.
  apply chacha20_block_reference; [reflexivity..|].
  repeat constructor; unfold is_uint32; lia.
Defined.

(** ** The chunk loop *)

Lemma QUARTERROUND_length a b c d x : length (QUARTERROUND a b c d x) = length x.
Proof.
  assert (∀ t s y, length (qr_add t s y) = length y) as Hadd
    by (intros; apply length_insert).
  assert (∀ t s y, length (qr_xor t s y) = length y) as Hxor
    by (intros; apply length_insert).
  assert (∀ t n m y, length (qr_rot t n m y) = length y) as Hrot
    by (intros; apply length_insert).
  rewrite QUARTERROUND_steps.
  by repeat (rewrite Hadd || rewrite Hxor || rewrite Hrot).
Qed.

Lemma round_body_length x : length (round_body x) = length x.
Proof. unfold round_body. cbv zeta. by rewrite !QUARTERROUND_length. Qed.

Lemma chacha20_block_length output input :
  length (chacha20_block output input) = length output.
Proof.
  unfold chacha20_block.
  rewrite (for_loop_update_length 0 16 (λ i v, uint32 (v + input !!! i))).
  etrans; [apply (for_loop_invariant (λ o, length o = length output))|done].
  - apply (for_loop_update_length 0 16 (λ i _, input !!! i)).
  - intros _ o _ Ho. by rewrite round_body_length.
Qed.

Lemma chacha20_block_output_irrelevant output output' input :
  length output = 16%nat → length output' = 16%nat → length input = 16%nat →
  chacha20_block output input = chacha20_block output' input.
Proof. intros. unfold chacha20_block. by rewrite !copy_loop. Qed.

Lemma memcpy_words_length dst word src n :
  length (memcpy_words dst word src n) = length dst.
Proof.
  apply (for_loop_update_length word (n `div` 4)
           (λ w _, little_endian_to_Z 8 (take 4 (drop (4 * w) src)))).
Qed.

Lemma memcpy_words_lookup_outside dst word src n j :
  (j < word ∨ word + n `div` 4 ≤ j)%nat →
  memcpy_words dst word src n !! j = dst !! j.
Proof.
  intros Hj. unfold memcpy_words.
  rewrite (for_loop_update_lookup word (n `div` 4)
             (λ w _, little_endian_to_Z 8 (take 4 (drop (4 * w) src)))).
  by rewrite decide_False by lia.
Qed.

Lemma initial_state_length key nonce : length (initial_state key nonce) = 16%nat.
Proof. unfold initial_state. by rewrite !memcpy_words_length. Qed.

Lemma initial_state_counter key nonce : initial_state key nonce !! 12%nat = Some 0.
Proof.
  unfold initial_state.
  rewrite memcpy_words_lookup_outside by (left; lia).
  rewrite memcpy_words_lookup_outside; [done|].
  right. change (32 `div` 4)%nat with 8%nat. lia.
Qed.

Lemma initial_state_nonce key nonce nonce' :
  take 8 nonce = take 8 nonce' →
  initial_state key nonce = initial_state key nonce'.
Proof.
  intros Heq. unfold initial_state, memcpy_words.
  apply for_loop_ext. intros w s Hw. do 2 f_equal.
  change (8 `div` 4)%nat with 2%nat in Hw.
  assert (∀ l : list Z,
    take 4 (drop (4 * w) l) = take 4 (drop (4 * w) (take 8 l))) as Hcut.
  { intros l. rewrite !take_drop_commute, take_take.
    do 2 f_equal. lia. }
  rewrite (Hcut nonce), (Hcut nonce').
  by rewrite Heq.
Qed.

Lemma xor_chunk_length input ks i chunk output :
  length (xor_chunk input ks i chunk output) = length output.
Proof.
  apply (for_loop_invariant (λ o, length o = length output)); [done|].
  intros ?? _ ?. by rewrite length_insert.
Qed.

Lemma xor_chunk_lookup input ks (i chunk : nat) output (j : nat) :
  xor_chunk input ks (Z.of_nat i) chunk output !! j =
    if decide (i ≤ j < i + chunk ∧ j < length output)%nat
    then Some (uint8 (Z.lxor (input !!! j) (bytes_of_words ks !!! (j - i)%nat)))
    else output !! j.
Proof.
  unfold xor_chunk.
  rewrite (for_loop_ext _ _
    (λ j' out, <[(i + j')%nat :=
       (λ j' _, uint8 (Z.lxor (input !!! (i + j')%nat)
                              (bytes_of_words ks !!! j'))) j' (out !!! (i + j')%nat)]> out)).
  2:{ intros j' s' _. by replace (Z.to_nat (Z.of_nat i + Z.of_nat j')) with (i + j')%nat by lia. }
  rewrite (for_loop_update_lookup i chunk
    (λ j' _, uint8 (Z.lxor (input !!! (i + j')%nat) (bytes_of_words ks !!! j')))).
  case_decide; [|done].
  do 4 f_equal. lia.
Qed.

Section chunk_loop.
Variables (key nonce input output0 : list Z) (len : Z).
Hypothesis Hlen : 0 ≤ len ≤ 2 ^ 32 - 64.

Lemma decrypted_to_start : decrypted_to key nonce input output0 0 output0.
Proof. split; [done|]. intros j. by rewrite decide_False by lia. Qed.

Lemma chunk_loop_spec fuel : ∀ (k : nat) (ks out : list Z),
  64 * Z.of_nat k < len + 64 →
  length ks = 16%nat →
  (Z.to_nat ((len + 63) `div` 64) + 1 ≤ k + fuel)%nat →
  decrypted_to key nonce input output0 (Z.to_nat (Z.min (64 * Z.of_nat k) len)) out →
  ∃ out',
    chunk_loop fuel input len (64 * Z.of_nat k)
      (<[12%nat := Z.of_nat k]> (initial_state key nonce)) ks out = Some out'
    ∧ decrypted_to key nonce input output0 (Z.to_nat len) out'.
Proof.
  pose proof (Z.div_mod (len + 63) 64 ltac:(lia)) as Hdm.
  pose proof (Z.mod_pos_bound (len + 63) 64 ltac:(lia)) as Hmb.
  induction fuel as [|fuel IH]; intros k ks out Hk Hks Hfuel Hinv; [lia|].
  cbn [chunk_loop]. case_bool_decide as Hi.
  - rewrite list_lookup_total_insert_eq by (rewrite initial_state_length; lia).
    rewrite list_insert_insert_eq.
    rewrite (uint32_small (Z.of_nat k + 1)) by (unfold is_uint32; lia).
    assert (size_t (len - 64 * Z.of_nat k) = len - 64 * Z.of_nat k) as ->
      by (apply Z.mod_small; lia).
    assert (size_t (64 * Z.of_nat k + 64) = 64 * Z.of_nat (S k)) as ->
      by (unfold size_t; rewrite Z.mod_small; lia).
    replace (Z.of_nat k + 1) with (Z.of_nat (S k)) by lia.
    set (ks' := chacha20_block ks _).
    set (chunk := Z.to_nat (if bool_decide (_ < 64) then _ else _)).
    assert (chunk = Z.to_nat (Z.min 64 (len - 64 * Z.of_nat k))) as Hchunk
      by (unfold chunk; case_bool_decide; lia).
    clearbody chunk.
    apply IH; [lia|by unfold ks'; rewrite chacha20_block_length|lia|].
    destruct Hinv as [Hl Hinv]. split; [by rewrite xor_chunk_length|].
    intros j. replace (64 * Z.of_nat k) with (Z.of_nat (64 * k)) by lia.
    rewrite xor_chunk_lookup, Hinv, Hl.
    destruct (decide (64 * k ≤ j < 64 * k + chunk ∧ j < length output0)%nat)
      as [[Hj Hjl]|Hj].
    + rewrite decide_True by lia.
      assert (j `div` 64 = k)%nat as ->
        by (symmetry; apply (Nat.div_unique _ _ _ (j - 64 * k)); lia).
      assert (j `mod` 64 = j - 64 * k)%nat as ->
        by (symmetry; apply (Nat.mod_unique _ _ k); lia).
      unfold Reference.keystream_block.
      replace (Z.of_nat k + 1) with (Z.of_nat (S k)) by lia.
      rewrite (chacha20_block_output_irrelevant (replicate 16 0) ks); [done|done..|].
      by rewrite length_insert, initial_state_length.
    + destruct (decide (j < Z.to_nat (Z.min (64 * Z.of_nat k) len)
                        ∧ j < length output0)%nat).
      * by rewrite decide_True by lia.
      * by rewrite decide_False by lia.
  - eexists. split; [done|].
    by replace (Z.to_nat len) with (Z.to_nat (Z.min (64 * Z.of_nat k) len)) by lia.
Qed.

Lemma chacha20_decrypt_spec fuel :
  (Z.to_nat (len `div` 64) + 2 ≤ fuel)%nat →
  ∃ out',
    chacha20_decrypt fuel output0 input len key nonce = Some out'
    ∧ decrypted_to key nonce input output0 (Z.to_nat len) out'.
Proof.
  intros Hfuel. unfold chacha20_decrypt. cbv zeta.
  rewrite <-(list_insert_id (initial_state key nonce) 12 0)
    by apply initial_state_counter.
  apply (chunk_loop_spec fuel 0); [lia|done| |].
  - pose proof (Z.div_mod (len + 63) 64 ltac:(lia)).
    pose proof (Z.mod_pos_bound (len + 63) 64 ltac:(lia)).
    pose proof (Z.div_mod len 64 ltac:(lia)).
    pose proof (Z.mod_pos_bound len 64 ltac:(lia)).
    lia.
  - replace (Z.to_nat _) with 0%nat by lia. apply decrypted_to_start.
Qed.

End chunk_loop.

Lemma decrypted_to_unique key nonce input output0 n out out' :
  decrypted_to key nonce input output0 n out →
  decrypted_to key nonce input output0 n out' → out = out'.
Proof. intros [_ H] [_ H']. apply list_eq. intros j. by rewrite H, H'. Qed.

Lemma bytes_of_words_is_uint8 ws : Forall is_uint8 (bytes_of_words ws).
Proof.
  unfold bytes_of_words. induction ws as [|w ws IH]; [constructor|].
  rewrite bind_cons. apply Forall_app. split; [|done].
  by apply (Z_to_little_endian_bound 4 8).
Qed.

Lemma lookup_total_is_uint8 (l : list Z) i : Forall is_uint8 l → is_uint8 (l !!! i).
Proof.
  intros Hl. destruct (decide (i < length l)%nat).
  - by apply Forall_lookup_total_1.
  - rewrite list_lookup_total_alt, lookup_ge_None_2 by lia.
    unfold is_uint8. simpl. lia.
Qed.

Lemma keystream_byte_is_uint8 key nonce k i :
  is_uint8 (Reference.keystream_block key nonce k !!! i).
Proof. apply lookup_total_is_uint8, bytes_of_words_is_uint8. Qed.

Lemma keystream_block_nonce key nonce nonce' k :
  take 8 nonce = take 8 nonce' →
  Reference.keystream_block key nonce k = Reference.keystream_block key nonce' k.
Proof.
  intros H. unfold Reference.keystream_block.
  by rewrite (initial_state_nonce key nonce nonce').
Qed.

(** C2: the keystream block XORed into the [i]-th 64-byte chunk (0-based) of
    a message is generated from the state whose counter word is [i + 1]: the
    counter is incremented before each block, the first chunk uses 1. *)
Theorem chunk_counter_is_index_plus_one (key nonce input output : list Z) (len : Z) :
  0 ≤ len ≤ 2 ^ 32 - 64 → len ≤ Z.of_nat (length output) →
  ∃ out',
    chacha20_decrypt (Z.to_nat (len `div` 64) + 2) output input len key nonce
      = Some out'
    ∧ ∀ i j : nat,
        (j < 64)%nat → Z.of_nat (64 * i + j) < len →
        out' !! (64 * i + j)%nat =
          Some (uint8 (Z.lxor (input !!! (64 * i + j)%nat)
            (bytes_of_words
               (chacha20_block (replicate 16 0)
                  (<[12%nat := Z.of_nat i + 1]> (initial_state key nonce)))
             !!! j))).
Proof.
  intros Hlen Hout.
  destruct (chacha20_decrypt_spec key nonce input output len Hlen
              (Z.to_nat (len `div` 64) + 2)) as (out' & Hrun & _ & Hout');
    [done|].
  exists out'. split; [done|]. intros i j Hj Hij.
  rewrite Hout', decide_True by lia.
  assert ((64 * i + j) `div` 64 = i)%nat as ->
    by (symmetry; apply (Nat.div_unique _ _ _ j); lia).
  assert ((64 * i + j) `mod` 64 = j)%nat as ->
    by (symmetry; apply (Nat.mod_unique _ _ i); lia).
  done.
Qed.

Lemma chunk_counter_is_index_plus_one_witness :
  ∃ out',
    chacha20_decrypt (Z.to_nat (70 `div` 64) + 2) (replicate 70 0) (seqZ 0 70) 70
      (seqZ 0 32) (seqZ 100 24) = Some out'
    ∧ ∀ i j : nat,
        (j < 64)%nat → Z.of_nat (64 * i + j) < 70 →
        out' !! (64 * i + j)%nat =
          Some (uint8 (Z.lxor (seqZ 0 70 !!! (64 * i + j)%nat)
            (bytes_of_words
               (chacha20_block (replicate 16 0)
                  (<[12%nat := Z.of_nat i + 1]>
                     (initial_state (seqZ 0 32) (seqZ 100 24))))
             !!! j))).
Proof.
  apply (chunk_counter_is_index_plus_one
           (seqZ 0 32) (seqZ 100 24) (seqZ 0 70) (replicate 70 0) 70).
  - lia.
  - rewrite length_replicate. lia.
Defined.

(** C6: applying the decryption routine twice with the same key and nonce
    gives back the byte sequence it started from. *)
Theorem chacha20_decrypt_involutive (key nonce p buf buf' : list Z) (fuel : nat) :
  Forall is_uint8 p →
  Z.of_nat (length p) ≤ 2 ^ 32 - 64 →
  length buf = length p → length buf' = length p →
  (length p `div` 64 + 2 ≤ fuel)%nat →
  ∃ c,
    chacha20_decrypt fuel buf p (Z.of_nat (length p)) key nonce = Some c
    ∧ chacha20_decrypt fuel buf' c (Z.of_nat (length p)) key nonce = Some p.
Proof.
  intros Hp Hlen Hbuf Hbuf' Hfuel.
  assert (Z.to_nat (Z.of_nat (length p) `div` 64) + 2 ≤ fuel)%nat as Hfuel'.
  { rewrite <-(Nat2Z.inj_div _ 64), Nat2Z.id. done. }
  assert (0 ≤ Z.of_nat (length p) ≤ 2 ^ 32 - 64) as Hrange by lia.
  destruct (chacha20_decrypt_spec key nonce p buf _ Hrange fuel Hfuel')
    as (c & Hc & Hcl & Hcj).
  destruct (chacha20_decrypt_spec key nonce c buf' _ Hrange fuel Hfuel')
    as (p' & Hp' & Hpl & Hpj).
  exists c. split; [done|]. rewrite Hp'. f_equal.
  apply list_eq. intros j. rewrite Hpj, Nat2Z.id.
  destruct (decide (j < length p)%nat) as [Hj|Hj].
  - rewrite decide_True by lia.
    pose proof (Hcj j) as Hc'. rewrite Nat2Z.id, decide_True in Hc' by lia.
    rewrite (list_lookup_total_correct c j _ Hc').
    pose proof (Forall_lookup_total_1 _ _ j Hp Hj) as Hpj8.
    pose proof (keystream_byte_is_uint8 key nonce
                  (Z.of_nat (j `div` 64)) (j `mod` 64)) as Hk8.
    rewrite (uint8_small (Z.lxor (p !!! j) _)) by by apply lxor_is_uint8.
    rewrite lxor_cancel_r, uint8_small by done.
    symmetry. by apply list_lookup_lookup_total_lt.
  - rewrite decide_False by lia.
    by rewrite !lookup_ge_None_2 by lia.
Qed.

Lemma chacha20_decrypt_involutive_witness :
  ∃ c,
    chacha20_decrypt 3 (replicate 70 0) (seqZ 0 70)
      (Z.of_nat (length (seqZ 0 70))) (seqZ 0 32) (seqZ 100 24) = Some c
    ∧ chacha20_decrypt 3 (replicate 70 7) c
        (Z.of_nat (length (seqZ 0 70))) (seqZ 0 32) (seqZ 100 24)
      = Some (seqZ 0 70).
Proof.
  apply (chacha20_decrypt_involutive (seqZ 0 32) (seqZ 100 24) (seqZ 0 70)
           (replicate 70 0) (replicate 70 7) 3).
  - apply list.Forall_forall. intros x Hx%elem_of_seqZ. unfold is_uint8. lia.
  - vm_compute. discriminate.
  - reflexivity.
  - reflexivity.
  - vm_compute. lia.
Defined.

(** C7: for 64 bytes of obfuscated key material, byte [i] of the recovered
    key is [material[i] xor material[32 + i]], for every [i] below 32. *)
Theorem deobfuscate_key_xor_halves (material : list Z) :
  length material = 64%nat → Forall is_uint8 material →
  length (deobfuscate_key material) = 32%nat
  ∧ ∀ i : nat, (i < 32)%nat →
      deobfuscate_key material !!! i
      = Z.lxor (material !!! i) (material !!! (32 + i)%nat).
Proof.
  intros Hlen Hbytes. unfold deobfuscate_key.
  set (h := λ (i : nat) (_ : Z),
              uint8 (Z.lxor (material !!! i) (material !!! (32 + i)%nat))).
  split.
  - by rewrite (for_loop_update_length 0 32 h), length_replicate.
  - intros i Hi. apply list_lookup_total_correct.
    rewrite (for_loop_update_lookup 0 32 h), length_replicate.
    rewrite decide_True by lia. unfold h. rewrite Nat.sub_0_r.
    f_equal. apply uint8_small, lxor_is_uint8; by apply lookup_total_is_uint8.
Qed.

Lemma deobfuscate_key_xor_halves_witness :
  length (deobfuscate_key (seqZ 0 64)) = 32%nat
  ∧ ∀ i : nat, (i < 32)%nat →
      deobfuscate_key (seqZ 0 64) !!! i
      = Z.lxor (seqZ 0 64 !!! i) (seqZ 0 64 !!! (32 + i)%nat).
Proof.
  apply (deobfuscate_key_xor_halves (seqZ 0 64)).
  - reflexivity.
  - apply list.Forall_forall. intros x Hx%elem_of_seqZ. unfold is_uint8. lia.
Defined.

(** ** C strings, the embedded blob and the cache *)

Section c_strings.
Implicit Types l r : list Z.

Lemma string_of_c_str_app_zero l r :
  string_of_c_str (l ++ 0 :: r) = string_of_c_str l.
Proof.
  induction l as [|c l IH]; simpl; [done|].
  case_bool_decide; [done|]. by rewrite IH.
Qed.

Lemma string_of_c_str_c_str l : string_of_c_str (c_str l) = string_of_c_str l.
Proof. apply string_of_c_str_app_zero. Qed.

Lemma string_of_c_str_no_zero l : 0 ∉ string_of_c_str l.
Proof.
  induction l as [|c l IH]; simpl; [apply not_elem_of_nil|].
  case_bool_decide; [apply not_elem_of_nil|].
  apply not_elem_of_cons. split; [congruence|done].
Qed.

Lemma string_of_c_str_id l : 0 ∉ l → string_of_c_str l = l.
Proof.
  induction l as [|c l IH]; [done|].
  intros [??]%not_elem_of_cons. simpl.
  rewrite bool_decide_false by congruence. by rewrite IH.
Qed.

Lemma string_of_c_str_split l :
  l = string_of_c_str l ∨ ∃ r, l = string_of_c_str l ++ 0 :: r.
Proof.
  induction l as [|c l IH]; simpl; [by left|].
  case_bool_decide as Hc.
  - right. exists l. by rewrite Hc.
  - destruct IH as [IH|[r IH]].
    + left. by f_equal.
    + right. exists r. simpl. by f_equal.
Qed.

Lemma string_of_c_str_length l :
  (length (string_of_c_str l) ≤ length l)%nat.
Proof.
  destruct (string_of_c_str_split l) as [H|[r H]].
  - by rewrite <-H.
  - rewrite H at 2. rewrite length_app. lia.
Qed.

Lemma string_of_c_str_shorter l :
  0 ∈ l → (length (string_of_c_str l) < length l)%nat.
Proof.
  intros Hin. destruct (string_of_c_str_split l) as [H|[r H]].
  - rewrite H in Hin. by apply string_of_c_str_no_zero in Hin.
  - rewrite H at 2. rewrite length_app. simpl. lia.
Qed.
End c_strings.

Section embedded.
Variable D : embedded_data.
Hypothesis Hwf : well_formed D.

Lemma ciphertext_len_no_wrap :
  size_t (ENCRYPTED_RELAYS_LEN D - 24 - 16) = ENCRYPTED_RELAYS_LEN D - 24 - 16
  ∧ size_t (ENCRYPTED_RELAYS_LEN D - 24 - 16 + 1)
    = ENCRYPTED_RELAYS_LEN D - 24 - 16 + 1.
Proof.
  destruct Hwf as (_ & _ & _ & _ & Hlen).
  unfold size_t. split; apply Z.mod_small; lia.
Qed.

Lemma decrypt_embedded_spec :
  ∃ plain,
    decrypt_embedded D = Some (plain ++ [0])
    ∧ Z.of_nat (length plain) = ENCRYPTED_RELAYS_LEN D - 24 - 16
    ∧ ∀ j : nat, (j < length plain)%nat →
        plain !! j =
          Some (uint8 (Z.lxor (ENCRYPTED_RELAYS D !!! (24 + j)%nat)
            (Reference.keystream_block (deobfuscate_key (KEY_MATERIAL D))
               (ENCRYPTED_RELAYS D) (Z.of_nat (j `div` 64))
             !!! (j `mod` 64)%nat))).
Proof.
  destruct ciphertext_len_no_wrap as [Hn Hn1].
  pose proof Hwf as (_ & _ & _ & _ & Hlen).
  unfold decrypt_embedded. cbv zeta. rewrite Hn, Hn1.
  set (n := ENCRYPTED_RELAYS_LEN D - 24 - 16) in *.
  destruct (chacha20_decrypt_spec (deobfuscate_key (KEY_MATERIAL D))
              (ENCRYPTED_RELAYS D) (drop 24 (ENCRYPTED_RELAYS D))
              (replicate (Z.to_nat (n + 1)) 0) n ltac:(lia)
              (Z.to_nat (n `div` 64) + 2) ltac:(done))
    as (out & -> & Hl & Hj).
  rewrite length_replicate in Hl, Hj. simpl.
  assert (out !! Z.to_nat n = Some 0) as Hlast.
  { rewrite Hj, decide_False by lia. apply lookup_replicate_2. lia. }
  rewrite list_insert_id by done.
  exists (take (Z.to_nat n) out). split_and!.
  - f_equal. rewrite <-(take_drop (Z.to_nat n) out) at 1. f_equal.
    apply list_eq. intros [|i].
    + by rewrite lookup_drop, Nat.add_0_r.
    + rewrite lookup_drop, lookup_ge_None_2; [done|lia].
  - rewrite length_take. lia.
  - intros j. rewrite length_take. intros Hjn.
    rewrite lookup_take_lt, Hj, decide_True by lia.
    by rewrite lookup_total_drop.
Qed.

Lemma payload_spec :
  ∃ plain text,
    decrypt_embedded D = Some (plain ++ [0])
    ∧ Z.of_nat (length plain) = ENCRYPTED_RELAYS_LEN D - 24 - 16
    ∧ payload D = Some text
    ∧ text = string_of_c_str plain.
Proof.
  destruct decrypt_embedded_spec as (plain & Hd & Hl & _).
  exists plain, (string_of_c_str plain). split_and!; [done..| |done].
  unfold payload. rewrite Hd. simpl. f_equal. apply string_of_c_str_c_str.
Qed.

End embedded.

Section cache.
Variable D : embedded_data.

Lemma get_edge_relays_miss g text :
  payload D = Some text → cached_result g = [] →
  get_edge_relays D g
  = Some (c_str text,
          {| cached_result := text; decrypt_runs := S (decrypt_runs g) |}).
Proof.
  unfold payload, get_edge_relays. intros Hp Hg.
  rewrite bool_decide_false by (by rewrite Hg; intros ?).
  destruct (decrypt_embedded D) as [buf|]; simplify_eq/=. done.
Qed.

Lemma get_edge_relays_hit g :
  cached_result g ≠ [] → get_edge_relays D g = Some (c_str (cached_result g), g).
Proof. intros Hg. unfold get_edge_relays. by rewrite bool_decide_true. Qed.

Lemma calls_hit n g :
  cached_result g ≠ [] →
  call_get_edge_relays D n g = Some (replicate n (c_str (cached_result g)), g).
Proof.
  intros Hg. induction n as [|n IH]; [done|].
  simpl. rewrite get_edge_relays_hit by done. simpl. by rewrite IH.
Qed.

Lemma calls_empty_payload n g :
  payload D = Some [] → cached_result g = [] →
  call_get_edge_relays D n g
  = Some (replicate n (c_str []),
          {| cached_result := []; decrypt_runs := n + decrypt_runs g |}).
Proof.
  intros Hp. revert g. induction n as [|n IH]; intros [c r] Hg; simpl in *.
  { by subst. }
  rewrite (get_edge_relays_miss _ []) by done. simpl.
  rewrite IH by done. simpl. do 3 f_equal. lia.
Qed.

Lemma calls_from_start n text :
  payload D = Some text → text ≠ [] →
  call_get_edge_relays D (S n) initial_globals
  = Some (replicate (S n) (c_str text),
          {| cached_result := text; decrypt_runs := 1 |}).
Proof.
  intros Hp Hne. simpl. rewrite (get_edge_relays_miss _ text) by done. simpl.
  by rewrite calls_hit.
Qed.

End cache.

(** C1, amended: over any [N > 1] calls of [get_edge_relays] from program
    start all calls return the same text, and when that text is not empty
    the deobfuscate-decrypt pipeline runs exactly once, on the first call. *)
Theorem cache_runs_pipeline_once (D : embedded_data) :
  well_formed D →
  ∃ text,
    payload D = Some text
    ∧ ∀ N : nat, (1 < N)%nat →
        ∃ g, call_get_edge_relays D N initial_globals
               = Some (replicate N (c_str text), g)
             ∧ cached_result g = text
             ∧ (text ≠ [] → decrypt_runs g = 1%nat).
Proof.
  intros Hwf. destruct (payload_spec D Hwf) as (plain & text & _ & _ & Hp & _).
  exists text. split; [done|]. intros [|n] HN; [lia|].
  destruct (decide (text = [])) as [->|Hne].
  - eexists. rewrite calls_empty_payload by done. done.
  - eexists. rewrite (calls_from_start D n text) by done. done.
Qed.

Lemma well_formed_header_with ciphertext :
  Forall is_uint8 ciphertext → Z.of_nat (length ciphertext) < 2 ^ 30 →
  well_formed (header_with ciphertext).
Proof.
  intros Hc Hl. unfold well_formed, header_with.
  cbn [KEY_MATERIAL ENCRYPTED_RELAYS ENCRYPTED_RELAYS_LEN]. split_and!.
  - apply length_replicate.
  - apply Forall_replicate. unfold is_uint8. lia.
  - repeat apply Forall_app_2; [|done|]; apply Forall_replicate; unfold is_uint8; lia.
  - rewrite !length_app, !length_replicate. lia.
  - lia.
  - lia.
Qed.

Ltac bytes := repeat (apply Forall_cons_2; [unfold is_uint8; lia|]); apply Forall_nil_2.

Lemma wf_abc : well_formed header_abc.
Proof.
  apply well_formed_header_with.
  - bytes.
  - cbn [length]. lia.
Qed.

Lemma cache_runs_pipeline_once_witness :
  ∃ text,
    payload header_abc = Some text
    ∧ ∀ N : nat, (1 < N)%nat →
        ∃ g, call_get_edge_relays header_abc N initial_globals
               = Some (replicate N (c_str text), g)
             ∧ cached_result g = text
             ∧ (text ≠ [] → decrypt_runs g = 1%nat).
Proof.
  apply (cache_runs_pipeline_once header_abc).
  apply well_formed_header_with; [bytes|cbn [length]; lia].
Defined.

Lemma cache_reruns_on_empty_payload :
  well_formed header_leading_zero
  ∧ ¬ ∃ rs g,
        call_get_edge_relays header_leading_zero 2 initial_globals = Some (rs, g)
        ∧ decrypt_runs g = 1%nat.
Proof.
  split.
  - apply well_formed_header_with; [bytes|cbn [length]; lia].
  - assert (call_get_edge_relays header_leading_zero 2 initial_globals
            = Some ([[0]; [0]], {| cached_result := []; decrypt_runs := 2 |}))
      as Hval by (vm_compute; reflexivity).
    intros (rs & g & Hrun & Hone).
    rewrite Hval in Hrun. injection Hrun as <- <-. discriminate Hone.
Qed.

Lemma get_edge_relays_first D plain :
  decrypt_embedded D = Some (plain ++ [0]) →
  get_edge_relays D initial_globals
  = Some (c_str (string_of_c_str plain),
          {| cached_result := string_of_c_str plain; decrypt_runs := 1 |}).
Proof.
  intros Hd. apply get_edge_relays_miss; [|done].
  unfold payload. rewrite Hd. simpl. f_equal. apply string_of_c_str_c_str.
Qed.

(** C4: the text [get_edge_relays] caches and returns is the prefix of the
    decrypted bytes before their first zero byte; when a decrypted byte is
    zero the cached text is strictly shorter than the ciphertext. *)
Theorem cached_text_stops_at_first_zero (D : embedded_data) :
  well_formed D →
  ∃ plain text,
    decrypt_embedded D = Some (plain ++ [0])
    ∧ Z.of_nat (length plain) = ENCRYPTED_RELAYS_LEN D - 24 - 16
    ∧ get_edge_relays D initial_globals
      = Some (c_str text, {| cached_result := text; decrypt_runs := 1 |})
    ∧ (0 ∉ text)
    ∧ (plain = text ∨ ∃ rest, plain = text ++ 0 :: rest)
    ∧ (0 ∈ plain → (length text < length plain)%nat).
Proof.
  intros Hwf. destruct (decrypt_embedded_spec D Hwf) as (plain & Hd & Hl & _).
  exists plain, (string_of_c_str plain). split_and!; [done..| | | |].
  - by apply get_edge_relays_first.
  - apply string_of_c_str_no_zero.
  - apply string_of_c_str_split.
  - apply string_of_c_str_shorter.
Qed.

Lemma cached_text_stops_at_first_zero_witness :
  ∃ plain text,
    decrypt_embedded header_inner_zero = Some (plain ++ [0])
    ∧ Z.of_nat (length plain) = ENCRYPTED_RELAYS_LEN header_inner_zero - 24 - 16
    ∧ get_edge_relays header_inner_zero initial_globals
      = Some (c_str text, {| cached_result := text; decrypt_runs := 1 |})
    ∧ (0 ∉ text)
    ∧ (plain = text ∨ ∃ rest, plain = text ++ 0 :: rest)
    ∧ (0 ∈ plain → (length text < length plain)%nat).
Proof.
  apply (cached_text_stops_at_first_zero header_inner_zero).
  apply well_formed_header_with; [bytes|cbn [length]; lia].
Defined.

(** C3, amended: for a well-formed blob the ciphertext consumed has length
    [len(blob) - 24 - 16] and so have the decrypted bytes; the text cached
    and returned is at most that long, and exactly that long when no
    decrypted byte is zero. *)
Theorem cached_length_at_most_ciphertext (D : embedded_data) :
  well_formed D →
  ∃ plain r g,
    size_t (ENCRYPTED_RELAYS_LEN D - 24 - 16) = ENCRYPTED_RELAYS_LEN D - 24 - 16
    ∧ decrypt_embedded D = Some (plain ++ [0])
    ∧ Z.of_nat (length plain) = ENCRYPTED_RELAYS_LEN D - 24 - 16
    ∧ get_edge_relays D initial_globals = Some (r, g)
    ∧ r = c_str (cached_result g)
    ∧ Z.of_nat (length (cached_result g)) ≤ ENCRYPTED_RELAYS_LEN D - 24 - 16
    ∧ (0 ∉ plain →
       cached_result g = plain
       ∧ Z.of_nat (length (cached_result g)) = ENCRYPTED_RELAYS_LEN D - 24 - 16).
Proof.
  intros Hwf. destruct (decrypt_embedded_spec D Hwf) as (plain & Hd & Hl & _).
  destruct (ciphertext_len_no_wrap D Hwf) as [Hn _].
  eexists plain, _, _. split_and!; [done..| | | |].
  - by apply get_edge_relays_first.
  - done.
  - simpl. pose proof (string_of_c_str_length plain). lia.
  - intros Hnz. simpl. by rewrite string_of_c_str_id.
Qed.

Lemma cached_length_at_most_ciphertext_witness :
  ∃ plain r g,
    size_t (ENCRYPTED_RELAYS_LEN header_abc - 24 - 16)
      = ENCRYPTED_RELAYS_LEN header_abc - 24 - 16
    ∧ decrypt_embedded header_abc = Some (plain ++ [0])
    ∧ Z.of_nat (length plain) = ENCRYPTED_RELAYS_LEN header_abc - 24 - 16
    ∧ get_edge_relays header_abc initial_globals = Some (r, g)
    ∧ r = c_str (cached_result g)
    ∧ Z.of_nat (length (cached_result g)) ≤ ENCRYPTED_RELAYS_LEN header_abc - 24 - 16
    ∧ (0 ∉ plain →
       cached_result g = plain
       ∧ Z.of_nat (length (cached_result g))
         = ENCRYPTED_RELAYS_LEN header_abc - 24 - 16).
Proof.
  apply (cached_length_at_most_ciphertext header_abc).
  apply well_formed_header_with; [bytes|cbn [length]; lia].
Defined.

Lemma cached_shorter_than_ciphertext :
  well_formed header_inner_zero
  ∧ ¬ ∃ r g,
        get_edge_relays header_inner_zero initial_globals = Some (r, g)
        ∧ Z.of_nat (length (cached_result g))
          = ENCRYPTED_RELAYS_LEN header_inner_zero - 24 - 16.
Proof.
  split.
  - apply well_formed_header_with; [bytes|cbn [length]; lia].
  - assert (get_edge_relays header_inner_zero initial_globals
            = Some ([97; 0], {| cached_result := [97]; decrypt_runs := 1 |}))
      as Hval by (vm_compute; reflexivity).
    intros (r & g & Hrun & Hlen).
    rewrite Hval in Hrun. injection Hrun as <- <-.
    vm_compute in Hlen. discriminate Hlen.
Qed.

(** C8: two blobs of the same length that agree on their first 8 bytes and
    on their ciphertext bytes (they may differ in bytes 8 to 23 of the nonce
    field and in the tag) decrypt, under the same key material, to the same
    bytes, and [get_edge_relays] cannot tell them apart. *)
Theorem unused_nonce_and_tag_bytes_irrelevant (D1 D2 : embedded_data) :
  well_formed D1 → well_formed D2 →
  KEY_MATERIAL D1 = KEY_MATERIAL D2 →
  ENCRYPTED_RELAYS_LEN D1 = ENCRYPTED_RELAYS_LEN D2 →
  (∀ i : nat,
     (i < 8)%nat ∨ 24 ≤ Z.of_nat i < ENCRYPTED_RELAYS_LEN D1 - 16 →
     ENCRYPTED_RELAYS D1 !! i = ENCRYPTED_RELAYS D2 !! i) →
  decrypt_embedded D1 = decrypt_embedded D2
  ∧ ∀ g, get_edge_relays D1 g = get_edge_relays D2 g.
Proof.
  intros Hwf1 Hwf2 Hkey Hlen Hsame.
  assert (decrypt_embedded D1 = decrypt_embedded D2) as Heq.
  { destruct (decrypt_embedded_spec D1 Hwf1) as (p1 & -> & Hl1 & Hj1).
    destruct (decrypt_embedded_spec D2 Hwf2) as (p2 & -> & Hl2 & Hj2).
    do 2 f_equal. apply list_eq. intros j.
    destruct (decide (j < length p1)%nat) as [Hj|Hj].
    - rewrite Hj1, Hj2 by lia. rewrite <-Hkey.
      rewrite (keystream_block_nonce _ (ENCRYPTED_RELAYS D1) (ENCRYPTED_RELAYS D2)).
      + by rewrite !list_lookup_total_alt, (Hsame (24 + j)%nat) by lia.
      + apply list_eq. intros i. destruct (decide (i < 8)%nat).
        * rewrite !lookup_take_lt by done. apply Hsame. by left.
        * by rewrite !lookup_take_ge by lia.
    - by rewrite !lookup_ge_None_2 by lia. }
  split; [done|]. intros g. unfold get_edge_relays. by rewrite Heq.
Qed.

Lemma unused_nonce_and_tag_bytes_irrelevant_witness :
  decrypt_embedded header_abc = decrypt_embedded header_other_padding
  ∧ ∀ g, get_edge_relays header_abc g = get_edge_relays header_other_padding g.
Proof.
  apply (unused_nonce_and_tag_bytes_irrelevant header_abc header_other_padding).
  - apply well_formed_header_with; [bytes|cbn [length]; lia].
  - unfold well_formed, header_other_padding.
    cbn [KEY_MATERIAL ENCRYPTED_RELAYS ENCRYPTED_RELAYS_LEN]. split_and!.
    + apply length_replicate.
    + apply Forall_replicate. unfold is_uint8. lia.
    + bytes.
    + reflexivity.
    + lia.
    + lia.
  - reflexivity.
  - reflexivity.
  - intros i Hi.
    assert (i < 8 ∨ i = 24 ∨ i = 25 ∨ i = 26)%nat as Hcases
      by (cbn [header_abc header_with ENCRYPTED_RELAYS_LEN length] in Hi; lia).
    destruct Hcases as [Hlt|[Hi'|[Hi'|Hi']]]; [|by subst i..].
    do 8 (destruct i as [|i]; [reflexivity|]). lia.
Defined.

Lemma int32_small z : - 2 ^ 31 ≤ z < 2 ^ 31 → int32 z = z.
Proof. intros. unfold int32. rewrite Z.mod_small; lia. Qed.

Lemma relay_scan_estimate text : ∀ count slashes,
  0 ∉ text → 0 ≤ count → 0 ≤ slashes →
  count + Z.of_nat (length text) < 2 ^ 31 →
  slashes + Z.of_nat (length text) < 2 ^ 31 →
  relay_scan (c_str text) count slashes
    = (foldl Reference.estimate_step (slashes, count) text).2
  ∧ count ≤ relay_scan (c_str text) count slashes.
Proof.
  unfold c_str.
  induction text as [|c text IH]; intros count slashes Hnz Hc Hs Hcl Hsl.
  { simpl. split; [done|lia]. }
  apply not_elem_of_cons in Hnz as [Hc0 Hnz].
  cbn [length] in Hcl, Hsl.
  cbn [app relay_scan foldl Reference.estimate_step].
  rewrite bool_decide_false by congruence.
  rewrite (int32_small (slashes + 1)), (int32_small (count + 1)) by lia.
  set (slashes' := if bool_decide (c = 47) then slashes + 1 else slashes).
  assert (slashes ≤ slashes' ≤ slashes + 1) as Hs'
    by (unfold slashes'; case_bool_decide; lia).
  clearbody slashes'.
  destruct (decide (c = 34 ∧ 0 < slashes')) as [[H34 Hpos]|Hno].
  - rewrite (bool_decide_true (c = 34)), (bool_decide_true (0 < slashes')) by done.
    rewrite (bool_decide_true (_ ∧ _)) by done. cbn [andb].
    destruct (IH (count + 1) 0) as [-> Hle]; [done|lia..|]. split; [done|lia].
  - rewrite (bool_decide_false (_ ∧ _)) by done.
    assert (bool_decide (c = 34) && bool_decide (0 < slashes') = false) as ->.
    { apply andb_false_iff. rewrite !bool_decide_eq_false.
      destruct (decide (c = 34)); [right|by left]. intros ?. by apply Hno. }
    destruct (IH count slashes') as [-> Hle]; [done|lia..|]. split; [done|lia].
Qed.

(** C9: on every text, [get_relay_count] returns the value of the
    left-to-right scan of the specification (counters [slashes] and result
    start at 0; a slash increments [slashes]; a double quote seen while
    [slashes > 0] increments the result and resets [slashes]); the result is
    not negative; it is 2 and 0 on the two sample texts.  The text is the
    one [get_edge_relays] hands over, whether it was cached or has just been
    decrypted. *)
Theorem get_relay_count_is_estimate_count
    (D : embedded_data) (g g' : globals) (text : list Z) :
  get_edge_relays D g = Some (c_str text, g') →
  0 ∉ text → Z.of_nat (length text) < 2 ^ 31 →
  get_relay_count D g = Some (Reference.estimate_count text, g')
  ∧ 0 ≤ Reference.estimate_count text
  ∧ (∀ runs : nat,
       get_relay_count D
         {| cached_result := [34; 97; 47; 98; 34; 32; 34; 99; 34; 32;
                              34; 100; 47; 101; 47; 102; 34];
            decrypt_runs := runs |}
       = Some (2,
               {| cached_result := [34; 97; 47; 98; 34; 32; 34; 99; 34; 32;
                                    34; 100; 47; 101; 47; 102; 34];
                  decrypt_runs := runs |}))
  ∧ (∀ runs : nat,
       get_relay_count D {| cached_result := [34; 34]; decrypt_runs := runs |}
       = Some (0, {| cached_result := [34; 34]; decrypt_runs := runs |})).
Proof.
  intros Hget Hnz Hlen.
  destruct (relay_scan_estimate text 0 0) as [Heq Hle]; [done|lia..|].
  split_and!.
  - unfold get_relay_count. rewrite Hget. simpl. by rewrite Heq.
  - unfold Reference.estimate_count. by rewrite <-Heq.
  - intros runs. unfold get_relay_count.
    by rewrite get_edge_relays_hit by done.
  - intros runs. unfold get_relay_count.
    by rewrite get_edge_relays_hit by done.
Qed.

Lemma get_relay_count_is_estimate_count_witness :
  get_relay_count header_abc
    {| cached_result := [34; 97; 47; 49; 34]; decrypt_runs := 1 |}
  = Some (Reference.estimate_count [34; 97; 47; 49; 34],
          {| cached_result := [34; 97; 47; 49; 34]; decrypt_runs := 1 |})
  ∧ 0 ≤ Reference.estimate_count [34; 97; 47; 49; 34]
  ∧ (∀ runs : nat,
       get_relay_count header_abc
         {| cached_result := [34; 97; 47; 98; 34; 32; 34; 99; 34; 32;
                              34; 100; 47; 101; 47; 102; 34];
            decrypt_runs := runs |}
       = Some (2,
               {| cached_result := [34; 97; 47; 98; 34; 32; 34; 99; 34; 32;
                                    34; 100; 47; 101; 47; 102; 34];
                  decrypt_runs := runs |}))
  ∧ (∀ runs : nat,
       get_relay_count header_abc
         {| cached_result := [34; 34]; decrypt_runs := runs |}
       = Some (0, {| cached_result := [34; 34]; decrypt_runs := runs |})).
Proof.
  apply (get_relay_count_is_estimate_count header_abc
           {| cached_result := [34; 97; 47; 49; 34]; decrypt_runs := 1 |}
           {| cached_result := [34; 97; 47; 49; 34]; decrypt_runs := 1 |}
           [34; 97; 47; 49; 34]).
  - reflexivity.
  - intros Hin. repeat (apply elem_of_cons in Hin as [Hin|Hin]; [discriminate Hin|]).
    by apply elem_of_nil in Hin.
  - cbn [length]. lia.
Defined.

Module DemoFacts.
Import Demo.

Lemma int64_small z : - 2 ^ 63 ≤ z < 2 ^ 63 → int64 z = z.
Proof. intros. unfold int64. rewrite Z.mod_small; lia. Qed.

Lemma int64_mul_l a b : int64 (int64 a * b) = int64 (a * b).
Proof.
  unfold int64. f_equal.
  rewrite (Z.mod_eq (a + 2 ^ 63) (2 ^ 64)) by lia.
  set (q := (a + 2 ^ 63) `div` 2 ^ 64).
  replace ((a + 2 ^ 63 - 2 ^ 64 * q - 2 ^ 63) * b + 2 ^ 63)
    with (a * b + 2 ^ 63 + (- q * b) * 2 ^ 64) by ring.
  by rewrite Z.mod_add by lia.
Qed.

Lemma product_upto_small n : n ≤ 1 → Reference.product_upto n = 1.
Proof. intros. unfold Reference.product_upto. by rewrite seqZ_nil by lia. Qed.

Lemma product_upto_step i :
  2 ≤ i → Reference.product_upto i = Reference.product_upto (i - 1) * i.
Proof.
  intros Hi. unfold Reference.product_upto.
  replace (i - 1) with (Z.of_nat (S (Z.to_nat (i - 2)))) by lia.
  rewrite seqZ_S, foldl_snoc.
  replace (Z.of_nat (S (Z.to_nat (i - 2))) - 1) with (Z.of_nat (Z.to_nat (i - 2))) by lia.
  f_equal. lia.
Qed.

Lemma factorial_loop_spec n fuel : ∀ i,
  2 ≤ i ≤ n + 1 → n - i + 2 ≤ Z.of_nat fuel →
  factorial_loop fuel n i (int64 (Reference.product_upto (i - 1)))
  = Some (int64 (Reference.product_upto n)).
Proof.
  induction fuel as [|fuel IH]; intros i Hi Hfuel; [lia|].
  cbn [factorial_loop]. case_bool_decide as Hle.
  - rewrite int64_mul_l, <-product_upto_step by lia.
    replace i with (i + 1 - 1) at 2 by lia. apply IH; lia.
  - by replace n with (i - 1) by lia.
Qed.

End DemoFacts.



(** * Further properties *)

(** ** The cipher *)

(** X1: [chacha20_decrypt] writes the first [len] bytes of [output] and
    nothing else: the buffer keeps its length, every byte from [len] on is
    unchanged, and with [len = 0] the whole buffer is. *)
Theorem chacha20_decrypt_writes_first_len_only
    (key nonce input output : list Z) (len : Z) (fuel : nat) :
  0 ≤ len ≤ 2 ^ 32 - 64 → (Z.to_nat (len `div` 64) + 2 ≤ fuel)%nat →
  ∃ out',
    chacha20_decrypt fuel output input len key nonce = Some out'
    ∧ length out' = length output
    ∧ (∀ j : nat, len ≤ Z.of_nat j → out' !! j = output !! j)
    ∧ (len = 0 → out' = output).
Proof.
  intros Hlen Hfuel.
  destruct (chacha20_decrypt_spec key nonce input output len Hlen fuel Hfuel)
    as (out' & Hrun & Hl & Hj).
  exists out'. split_and!; [done..| |].
  - intros j Hge. by rewrite Hj, decide_False by lia.
  - intros ->. apply list_eq. intros j. by rewrite Hj, decide_False by lia.
Qed.

Lemma chacha20_decrypt_writes_first_len_only_witness :
  ∃ out',
    chacha20_decrypt 3 (replicate 5 9) [1; 2; 3] 3 (seqZ 0 32) (seqZ 0 24)
      = Some out'
    ∧ length out' = length (replicate 5 9)
    ∧ (∀ j : nat, 3 ≤ Z.of_nat j → out' !! j = replicate 5 9 !! j)
    ∧ (3 = 0 → out' = replicate 5 9).
Proof.
  apply (chacha20_decrypt_writes_first_len_only
           (seqZ 0 32) (seqZ 0 24) [1; 2; 3] (replicate 5 9) 3 3).
  - lia.
  - vm_compute. lia.
Defined.

Lemma lxor_same_mask a b k : Z.lxor (Z.lxor a k) (Z.lxor b k) = Z.lxor a b.
Proof.
  apply Z.bits_inj_iff'. intros i _. rewrite !Z.lxor_spec.
  by destruct (Z.testbit a i), (Z.testbit b i), (Z.testbit k i).
Qed.

(** X3: decryption is malleable byte by byte: for two inputs under the same
    key and nonce, the XOR of the outputs at a position is the XOR of the
    inputs there. *)
Theorem chacha20_decrypt_xor_malleable
    (key nonce c c' buf buf' : list Z) (len : Z) (fuel : nat) :
  Forall is_uint8 c → Forall is_uint8 c' →
  0 ≤ len ≤ 2 ^ 32 - 64 → (Z.to_nat (len `div` 64) + 2 ≤ fuel)%nat →
  len ≤ Z.of_nat (length buf) → len ≤ Z.of_nat (length buf') →
  ∃ p p',
    chacha20_decrypt fuel buf c len key nonce = Some p
    ∧ chacha20_decrypt fuel buf' c' len key nonce = Some p'
    ∧ ∀ j : nat, Z.of_nat j < len →
        Z.lxor (p !!! j) (p' !!! j) = Z.lxor (c !!! j) (c' !!! j).
Proof.
  intros Hc Hc' Hlen Hfuel Hbuf Hbuf'.
  destruct (chacha20_decrypt_spec key nonce c buf len Hlen fuel Hfuel)
    as (p & Hp & _ & Hpj).
  destruct (chacha20_decrypt_spec key nonce c' buf' len Hlen fuel Hfuel)
    as (p' & Hp' & _ & Hpj').
  exists p, p'. split_and!; [done..|]. intros j Hj.
  pose proof (Hpj j) as H1. pose proof (Hpj' j) as H2.
  rewrite decide_True in H1 by lia. rewrite decide_True in H2 by lia.
  rewrite (list_lookup_total_correct _ _ _ H1), (list_lookup_total_correct _ _ _ H2).
  pose proof (keystream_byte_is_uint8 key nonce
                (Z.of_nat (j `div` 64)) (j `mod` 64)) as Hk.
  rewrite !uint8_small
    by (apply lxor_is_uint8; [by apply lookup_total_is_uint8|done]).
  apply lxor_same_mask.
Qed.

Lemma chacha20_decrypt_xor_malleable_witness :
  ∃ p p',
    chacha20_decrypt 3 (replicate 3 0) [1; 2; 3] 3 (seqZ 0 32) (seqZ 0 24)
      = Some p
    ∧ chacha20_decrypt 3 (replicate 3 0) [1; 6; 3] 3 (seqZ 0 32) (seqZ 0 24)
      = Some p'
    ∧ ∀ j : nat, Z.of_nat j < 3 →
        Z.lxor (p !!! j) (p' !!! j) = Z.lxor ([1; 2; 3] !!! j) ([1; 6; 3] !!! j).
Proof.
  apply (chacha20_decrypt_xor_malleable (seqZ 0 32) (seqZ 0 24)
           [1; 2; 3] [1; 6; 3] (replicate 3 0) (replicate 3 0) 3 3).
  - bytes.
  - bytes.
  - lia.
  - vm_compute. lia.
  - cbn [length replicate]. lia.
  - cbn [length replicate]. lia.
Defined.

(** X4: decrypting only the first [len'] bytes of a message gives the
    first [len'] bytes of the decryption of more of it. *)
Theorem chacha20_decrypt_prefix
    (key nonce input output : list Z) (len len' : Z) (fuel : nat) :
  0 ≤ len' ≤ len → len ≤ 2 ^ 32 - 64 →
  (Z.to_nat (len `div` 64) + 2 ≤ fuel)%nat →
  ∃ out out',
    chacha20_decrypt fuel output input len key nonce = Some out
    ∧ chacha20_decrypt fuel output input len' key nonce = Some out'
    ∧ take (Z.to_nat len') out' = take (Z.to_nat len') out.
Proof.
  intros Hlen' Hlen Hfuel.
  assert (Z.to_nat (len' `div` 64) + 2 ≤ fuel)%nat as Hfuel'.
  { assert (len' `div` 64 ≤ len `div` 64) by (apply Z.div_le_mono; lia). lia. }
  destruct (chacha20_decrypt_spec key nonce input output len
              ltac:(lia) fuel Hfuel) as (out & Hrun & _ & Hj).
  destruct (chacha20_decrypt_spec key nonce input output len'
              ltac:(lia) fuel Hfuel') as (out' & Hrun' & _ & Hj').
  exists out, out'. split_and!; [done..|].
  apply list_eq. intros j. destruct (decide (j < Z.to_nat len')%nat).
  - rewrite !lookup_take_lt, Hj, Hj' by done.
    destruct (decide (j < length output)%nat).
    + by rewrite !decide_True by lia.
    + by rewrite !decide_False by lia.
  - by rewrite !lookup_take_ge by lia.
Qed.

Lemma chacha20_decrypt_prefix_witness :
  ∃ out out',
    chacha20_decrypt 4 (replicate 70 0) (seqZ 0 70) 70 (seqZ 0 32) (seqZ 0 24)
      = Some out
    ∧ chacha20_decrypt 4 (replicate 70 0) (seqZ 0 70) 10 (seqZ 0 32) (seqZ 0 24)
      = Some out'
    ∧ take (Z.to_nat 10) out' = take (Z.to_nat 10) out.
Proof.
  apply (chacha20_decrypt_prefix (seqZ 0 32) (seqZ 0 24) (seqZ 0 70)
           (replicate 70 0) 70 10 4).
  - lia.
  - lia.
  - vm_compute. lia.
Defined.

(** X2: [chacha20_block] overwrites all of [output]: the result does not
    depend on what [output] held, has 16 words, and every word is below
    2^32. *)
Theorem chacha20_block_overwrites_output (output output' input : list Z) :
  length output = 16%nat → length output' = 16%nat → length input = 16%nat →
  chacha20_block output input = chacha20_block output' input
  ∧ length (chacha20_block output input) = 16%nat
  ∧ Forall is_uint32 (chacha20_block output input).
Proof.
  intros Hout Hout' Hin. split_and!.
  - by apply chacha20_block_output_irrelevant.
  - by rewrite chacha20_block_length.
  - unfold chacha20_block. cbv zeta.
    set (s := for_loop 10 _ _).
    assert (length s = 16%nat) as Hs.
    { unfold s. apply (for_loop_invariant (λ o, length o = 16%nat)).
      - by rewrite copy_loop.
      - intros _ o _ Ho. by rewrite round_body_length. }
    clearbody s. apply Forall_lookup. intros i x.
    rewrite (for_loop_update_lookup 0 16 (λ i v, uint32 (v + input !!! i))).
    case_decide as Hi.
    + intros [= <-]. apply uint32_is_uint32.
    + rewrite lookup_ge_None_2 by lia. done.
Qed.

Lemma chacha20_block_overwrites_output_witness :
  chacha20_block (replicate 16 0) (seqZ 0 16)
    = chacha20_block (seqZ 100 16) (seqZ 0 16)
  ∧ length (chacha20_block (replicate 16 0) (seqZ 0 16)) = 16%nat
  ∧ Forall is_uint32 (chacha20_block (replicate 16 0) (seqZ 0 16)).
Proof.
  apply (chacha20_block_overwrites_output
           (replicate 16 0) (seqZ 100 16) (seqZ 0 16)); reflexivity.
Defined.

Lemma memcpy_words_is_uint32 dst word src n :
  Forall is_uint32 dst → Forall is_uint8 src →
  Forall is_uint32 (memcpy_words dst word src n).
Proof.
  intros Hdst Hsrc. unfold memcpy_words.
  apply (for_loop_invariant (Forall is_uint32)); [done|].
  intros w s _ Hs. apply Forall_insert; [done|].
  set (bs := take 4 (drop (4 * w) src)).
  assert (Forall is_uint8 bs) as Hbs by by apply Forall_take, Forall_drop.
  assert (length bs ≤ 4)%nat as Hl by (unfold bs; rewrite length_take; lia).
  pose proof (little_endian_to_Z_bound 8 bs ltac:(lia) Hbs) as [H0 Hlt].
  split; [done|]. eapply Z.lt_le_trans; [done|].
  apply Z.pow_le_mono_r; lia.
Qed.

Lemma initial_state_state16 key nonce :
  Forall is_uint8 key → Forall is_uint8 nonce →
  state16 (initial_state key nonce).
Proof.
  intros Hkey Hnonce. split; [apply initial_state_length|].
  unfold initial_state. cbv zeta.
  apply memcpy_words_is_uint32; [|done].
  apply memcpy_words_is_uint32; [|done].
  repeat (apply Forall_cons_2; [unfold is_uint32; lia|]). apply Forall_nil_2.
Qed.

(** X6: for a key and a nonce made of bytes, the state [chacha20_decrypt]
    builds starts with the four constants and has words 12 and 13 at 0, and
    the block computed from it under any counter value is the reference
    block of that state. *)
Theorem cipher_state_is_reference_input (key nonce ks : list Z) (k : Z) :
  Forall is_uint8 key → Forall is_uint8 nonce →
  length ks = 16%nat → is_uint32 k →
  take 4 (initial_state key nonce)
    = [0x61707865; 0x3320646e; 0x79622d32; 0x6b206574]
  ∧ initial_state key nonce !! 12%nat = Some 0
  ∧ initial_state key nonce !! 13%nat = Some 0
  ∧ chacha20_block ks (<[12%nat := k]> (initial_state key nonce))
    = Reference.block (<[12%nat := k]> (initial_state key nonce)).
Proof.
  intros Hkey Hnonce Hks Hk. split_and!.
  - apply list_eq. intros i. unfold initial_state. cbv zeta.
    destruct (decide (i < 4)%nat).
    + rewrite lookup_take_lt by done.
      rewrite !memcpy_words_lookup_outside by (left; lia).
      do 4 (destruct i as [|i]; [done|]). lia.
    + rewrite lookup_take_ge by lia.
      by do 4 (destruct i as [|i]; [lia|]).
  - apply initial_state_counter.
  - unfold initial_state. cbv zeta.
    rewrite memcpy_words_lookup_outside by (left; lia).
    rewrite memcpy_words_lookup_outside; [done|].
    right. change (32 `div` 4)%nat with 8%nat. lia.
  - apply chacha20_block_spec; [done|].
    destruct (initial_state_state16 key nonce Hkey Hnonce) as [Hl Hall].
    split; [by rewrite length_insert|by apply Forall_insert].
Qed.

Lemma cipher_state_is_reference_input_witness :
  take 4 (initial_state (seqZ 0 32) (seqZ 0 24))
    = [0x61707865; 0x3320646e; 0x79622d32; 0x6b206574]
  ∧ initial_state (seqZ 0 32) (seqZ 0 24) !! 12%nat = Some 0
  ∧ initial_state (seqZ 0 32) (seqZ 0 24) !! 13%nat = Some 0
  ∧ chacha20_block (replicate 16 0)
      (<[12%nat := 7]> (initial_state (seqZ 0 32) (seqZ 0 24)))
    = Reference.block (<[12%nat := 7]> (initial_state (seqZ 0 32) (seqZ 0 24))).
Proof.
  apply (cipher_state_is_reference_input (seqZ 0 32) (seqZ 0 24)
           (replicate 16 0) 7).
  - apply list.Forall_forall. intros x Hx%elem_of_seqZ. unfold is_uint8. lia.
  - apply list.Forall_forall. intros x Hx%elem_of_seqZ. unfold is_uint8. lia.
  - reflexivity.
  - unfold is_uint32. lia.
Defined.

(** ** The embedded text and the relay counter *)

(** X7: round trip.  When the ciphertext of a blob is the XOR of a text
    without zero byte with the keystream (the cipher routine run on the
    text, under the deobfuscated key and the blob's nonce), the first call of
    [get_edge_relays] returns and caches exactly that text. *)
Theorem embedded_text_round_trip
    (material nonce tag text buf c : list Z) (fuel : nat) :
  length material = 64%nat → Forall is_uint8 material →
  length nonce = 24%nat → Forall is_uint8 nonce →
  length tag = 16%nat → Forall is_uint8 tag →
  Forall is_uint8 text → 0 ∉ text → Z.of_nat (length text) < 2 ^ 30 →
  length buf = length text →
  (length text `div` 64 + 2 ≤ fuel)%nat →
  chacha20_decrypt fuel buf text (Z.of_nat (length text))
    (deobfuscate_key material) nonce = Some c →
  get_edge_relays
    {| KEY_MATERIAL := material;
       ENCRYPTED_RELAYS := nonce ++ c ++ tag;
       ENCRYPTED_RELAYS_LEN := 24 + Z.of_nat (length text) + 16 |}
    initial_globals
  = Some (c_str text, {| cached_result := text; decrypt_runs := 1 |}).
Proof.
  intros Hml Hm Hnl Hn Htl Ht Htext Hnz Hlen Hbuf Hfuel Henc.
  set (key := deobfuscate_key material) in *.
  set (n := length text) in *.
  assert (Z.to_nat (Z.of_nat n `div` 64) + 2 ≤ fuel)%nat as Hfuel'.
  { by rewrite <-(Nat2Z.inj_div _ 64), Nat2Z.id. }
  destruct (chacha20_decrypt_spec key nonce text buf (Z.of_nat n)
              ltac:(lia) fuel Hfuel') as (c' & Hc' & Hcl & Hcj).
  rewrite Henc in Hc'. injection Hc' as <-.
  rewrite Nat2Z.id in Hcj.
  assert (length c = n) as Hcn by lia.
  assert (Forall is_uint8 c) as Hc8.
  { apply Forall_lookup. intros j x Hx.
    pose proof (lookup_lt_Some _ _ _ Hx).
    rewrite Hcj, decide_True in Hx by lia. injection Hx as <-.
    apply uint8_is_uint8. }
  set (D := {| KEY_MATERIAL := material; ENCRYPTED_RELAYS := nonce ++ c ++ tag;
               ENCRYPTED_RELAYS_LEN := 24 + Z.of_nat n + 16 |}).
  assert (well_formed D) as Hwf.
  { unfold well_formed, D.
    cbn [KEY_MATERIAL ENCRYPTED_RELAYS ENCRYPTED_RELAYS_LEN]. split_and!.
    - done.
    - done.
    - by repeat apply Forall_app_2.
    - rewrite !length_app. lia.
    - lia.
    - lia. }
  destruct (decrypt_embedded_spec D Hwf) as (plain & Hd & Hpl & Hpj).
  cbn [D KEY_MATERIAL ENCRYPTED_RELAYS ENCRYPTED_RELAYS_LEN] in Hpl, Hpj.
  assert (plain = text) as ->.
  { apply list_eq. intros j. destruct (decide (j < n)%nat) as [Hj|Hj].
    - rewrite Hpj by lia.
      rewrite lookup_total_app_r by lia.
      replace (24 + j - length nonce)%nat with j by lia.
      rewrite lookup_total_app_l by lia.
      pose proof (Hcj j) as Hcj'. rewrite decide_True in Hcj' by lia.
      rewrite (list_lookup_total_correct _ _ _ Hcj').
      rewrite (keystream_block_nonce key (nonce ++ c ++ tag) nonce)
        by (by rewrite take_app_le by lia).
      pose proof (Forall_lookup_total_1 _ _ j Htext Hj) as Ht8.
      pose proof (keystream_byte_is_uint8 key nonce
                    (Z.of_nat (j `div` 64)) (j `mod` 64)) as Hk8.
      rewrite (uint8_small (Z.lxor (text !!! j) _)) by by apply lxor_is_uint8.
      rewrite lxor_cancel_r, uint8_small by done.
      symmetry. by apply list_lookup_lookup_total_lt.
    - by rewrite !lookup_ge_None_2 by lia. }
  rewrite (get_edge_relays_first D text Hd).
  by rewrite string_of_c_str_id.
Qed.

Lemma embedded_text_round_trip_witness :
  get_edge_relays
    {| KEY_MATERIAL := replicate 64 0;
       ENCRYPTED_RELAYS := replicate 24 0 ++ [254; 101; 132] ++ replicate 16 0;
       ENCRYPTED_RELAYS_LEN := 24 + Z.of_nat (length [97; 98; 99]) + 16 |}
    initial_globals
  = Some (c_str [97; 98; 99],
          {| cached_result := [97; 98; 99]; decrypt_runs := 1 |}).
Proof.
  apply (embedded_text_round_trip (replicate 64 0) (replicate 24 0)
           (replicate 16 0) [97; 98; 99] (replicate 3 0) [254; 101; 132] 2).
  - reflexivity.
  - apply Forall_replicate. unfold is_uint8. lia.
  - reflexivity.
  - apply Forall_replicate. unfold is_uint8. lia.
  - reflexivity.
  - apply Forall_replicate. unfold is_uint8. lia.
  - bytes.
  - intros Hin. repeat (apply elem_of_cons in Hin as [Hin|Hin]; [discriminate Hin|]).
    by apply elem_of_nil in Hin.
  - cbn [length]. lia.
  - reflexivity.
  - vm_compute. lia.
  - vm_compute. reflexivity.
Defined.

Lemma payload_fits D text :
  well_formed D → payload D = Some text →
  (0 ∉ text) ∧ Z.of_nat (length text) < 2 ^ 31.
Proof.
  intros Hwf Hp.
  destruct (payload_spec D Hwf) as (plain & text' & _ & Hl & Hp' & ->).
  rewrite Hp in Hp'. injection Hp' as ->.
  split; [apply string_of_c_str_no_zero|].
  pose proof (string_of_c_str_length plain).
  destruct Hwf as (_ & _ & _ & _ & ?). lia.
Qed.

(** X8: [get_relay_count] goes through the cache: from program start it
    returns the scan of the payload and leaves the payload cached after one
    decryption; with that non-empty text already cached it returns the same
    count and changes nothing. *)
Theorem get_relay_count_reads_through_cache (D : embedded_data) :
  well_formed D →
  ∃ text,
    payload D = Some text
    ∧ get_relay_count D initial_globals
      = Some (Reference.estimate_count text,
              {| cached_result := text; decrypt_runs := 1 |})
    ∧ ∀ g, cached_result g = text → text ≠ [] →
        get_relay_count D g = Some (Reference.estimate_count text, g).
Proof.
  intros Hwf. destruct (payload_spec D Hwf) as (plain & text & _ & _ & Hp & _).
  destruct (payload_fits D text Hwf Hp) as [Hnz Hlen].
  destruct (relay_scan_estimate text 0 0) as [Hscan _]; [done|lia..|].
  exists text. split_and!; [done| |].
  - unfold get_relay_count.
    rewrite (get_edge_relays_miss D initial_globals text) by done.
    simpl. by rewrite Hscan.
  - intros g Hg Hne. unfold get_relay_count.
    rewrite get_edge_relays_hit by (by rewrite Hg).
    simpl. by rewrite Hg, Hscan.
Qed.

Lemma get_relay_count_reads_through_cache_witness :
  ∃ text,
    payload header_abc = Some text
    ∧ get_relay_count header_abc initial_globals
      = Some (Reference.estimate_count text,
              {| cached_result := text; decrypt_runs := 1 |})
    ∧ ∀ g, cached_result g = text → text ≠ [] →
        get_relay_count header_abc g = Some (Reference.estimate_count text, g).
Proof.
  apply (get_relay_count_reads_through_cache header_abc).
  apply well_formed_header_with; [bytes|cbn [length]; lia].
Defined.

Lemma occurrences_cons c x text :
  Reference.occurrences c (x :: text)
  = (if bool_decide (x = c) then 1 else 0) + Reference.occurrences c text.
Proof.
  unfold Reference.occurrences. rewrite filter_cons.
  case_decide; case_bool_decide; try done; cbn [length]; lia.
Qed.

Lemma occurrences_nonneg c text : 0 ≤ Reference.occurrences c text.
Proof. unfold Reference.occurrences. lia. Qed.

Lemma estimate_bounds text : ∀ s r,
  0 ≤ s →
  let res := (foldl Reference.estimate_step (s, r) text).2 in
  res ≤ r + Reference.occurrences 34 text
  ∧ res ≤ r + Reference.occurrences 47 text
          + (if bool_decide (0 < s) then 1 else 0).
Proof.
  induction text as [|c text IH]; intros s r Hs; cbn [foldl].
  { cbn zeta. unfold Reference.occurrences. simpl. case_bool_decide; lia. }
  cbn zeta. rewrite !occurrences_cons.
  cbn [Reference.estimate_step].
  set (s' := if bool_decide (c = 47) then s + 1 else s).
  assert ((c = 47 → s' = s + 1) ∧ (c ≠ 47 → s' = s)) as Hs'
    by (unfold s'; case_bool_decide; split; intros; done || lia).
  clearbody s'.
  destruct (decide (c = 34 ∧ 0 < s')) as [[H34 Hpos]|Hno].
  - rewrite (bool_decide_true (_ ∧ _)) by done.
    destruct (IH 0 (r + 1) ltac:(lia)) as [Hq Hsl]. cbn zeta in Hq, Hsl.
    set (res := (foldl _ _ _).2) in *. clearbody res.
    repeat case_bool_decide; lia.
  - rewrite (bool_decide_false (_ ∧ _)) by done.
    destruct (IH s' r ltac:(lia)) as [Hq Hsl]. cbn zeta in Hq, Hsl.
    set (res := (foldl _ _ _).2) in *. clearbody res.
    repeat case_bool_decide; lia.
Qed.

(** X9: the count never exceeds the number of slashes of the text, nor its
    number of double quotes. *)
Theorem relay_scan_bounded_by_slashes_and_quotes (text : list Z) :
  0 ∉ text → Z.of_nat (length text) < 2 ^ 31 →
  relay_scan (c_str text) 0 0 ≤ Reference.occurrences 47 text
  ∧ relay_scan (c_str text) 0 0 ≤ Reference.occurrences 34 text.
Proof.
  intros Hnz Hlen.
  destruct (relay_scan_estimate text 0 0) as [-> _]; [done|lia..|].
  destruct (estimate_bounds text 0 0) as [Hq Hs]; [done|].
  cbn zeta in Hq, Hs. rewrite (bool_decide_false (0 < 0)) in Hs by lia. lia.
Qed.

Lemma relay_scan_bounded_by_slashes_and_quotes_witness :
  relay_scan (c_str [34; 47; 47; 34; 34; 47]) 0 0
    ≤ Reference.occurrences 47 [34; 47; 47; 34; 34; 47]
  ∧ relay_scan (c_str [34; 47; 47; 34; 34; 47]) 0 0
    ≤ Reference.occurrences 34 [34; 47; 47; 34; 34; 47].
Proof.
  apply relay_scan_bounded_by_slashes_and_quotes.
  - intros Hin. repeat (apply elem_of_cons in Hin as [Hin|Hin]; [discriminate Hin|]).
    by apply elem_of_nil in Hin.
  - cbn [length]. lia.
Defined.

(** X10: the scan stops at the first zero byte: what follows it in memory
    has no influence on the count. *)
Theorem relay_scan_stops_at_terminator (text rest : list Z) (count slashes : Z) :
  relay_scan (text ++ 0 :: rest) count slashes
  = relay_scan (c_str text) count slashes.
Proof.
  unfold c_str. revert count slashes.
  induction text as [|c text IH]; intros count slashes; [done|].
  cbn [app relay_scan]. case_bool_decide; [done|].
  by rewrite !IH.
Qed.

(** X18: once [cached_result] is not empty, any number of calls of
    [get_edge_relays] return that text, run no decryption and leave the
    globals as they are, whatever the embedded data. *)
Theorem cache_is_write_once (D : embedded_data) (g : globals) (n : nat) :
  cached_result g ≠ [] →
  call_get_edge_relays D n g = Some (replicate n (c_str (cached_result g)), g).
Proof. apply calls_hit. Qed.

Lemma cache_is_write_once_witness :
  call_get_edge_relays header_leading_zero 3
    {| cached_result := [120]; decrypt_runs := 5 |}
  = Some (replicate 3 (c_str [120]),
          {| cached_result := [120]; decrypt_runs := 5 |}).
Proof.
  apply (cache_is_write_once header_leading_zero
           {| cached_result := [120]; decrypt_runs := 5 |} 3).
  discriminate.
Defined.

(** ** demo.c *)

Import Demo DemoFacts.

Lemma int32_range z : - 2 ^ 31 ≤ int32 z < 2 ^ 31.
Proof.
  unfold int32. pose proof (Z.mod_pos_bound (z + 2 ^ 31) (2 ^ 32) ltac:(lia)). lia.
Qed.

Lemma int32_congr a b : a `mod` 2 ^ 32 = b `mod` 2 ^ 32 → int32 a = int32 b.
Proof.
  intros H. unfold int32. f_equal.
  rewrite <-(Zplus_mod_idemp_l a), <-(Zplus_mod_idemp_l b). by rewrite H.
Qed.

Lemma int32_mod z : int32 z `mod` 2 ^ 32 = z `mod` 2 ^ 32.
Proof.
  unfold int32. rewrite (Z.mod_eq (z + 2 ^ 31) (2 ^ 32)) by lia.
  set (q := (z + 2 ^ 31) `div` 2 ^ 32).
  replace (z + 2 ^ 31 - 2 ^ 32 * q - 2 ^ 31) with (z + (- q) * 2 ^ 32) by ring.
  by rewrite Z.mod_add by lia.
Qed.

Lemma int32_add a b : int32 (int32 a + int32 b) = int32 (a + b).
Proof.
  apply int32_congr.
  rewrite Zplus_mod, !int32_mod. by rewrite <-Zplus_mod.
Qed.

Lemma int32_add_mod_l x y : (int32 x + y) `mod` 2 ^ 32 = (x + y) `mod` 2 ^ 32.
Proof. by rewrite Zplus_mod, int32_mod, <-Zplus_mod. Qed.

Lemma int32_add_mod_r x y : (x + int32 y) `mod` 2 ^ 32 = (x + y) `mod` 2 ^ 32.
Proof. by rewrite Zplus_mod, int32_mod, <-Zplus_mod. Qed.

Lemma int32_mul_mod_l x y : (int32 x * y) `mod` 2 ^ 32 = (x * y) `mod` 2 ^ 32.
Proof. by rewrite Zmult_mod, int32_mod, <-Zmult_mod. Qed.

Lemma int32_mul_mod_r x y : (x * int32 y) `mod` 2 ^ 32 = (x * y) `mod` 2 ^ 32.
Proof. by rewrite Zmult_mod, int32_mod, <-Zmult_mod. Qed.

(** X16: [demo_add] and [demo_multiply] stay within [int32_t], agree with
    the exact sum and product modulo 2^32, are commutative and associative,
    and [demo_multiply] distributes over [demo_add]. *)
Theorem demo_add_multiply_wrap_laws (a b c : Z) :
  - 2 ^ 31 ≤ demo_add a b < 2 ^ 31
  ∧ - 2 ^ 31 ≤ demo_multiply a b < 2 ^ 31
  ∧ demo_add a b `mod` 2 ^ 32 = (a + b) `mod` 2 ^ 32
  ∧ demo_multiply a b `mod` 2 ^ 32 = (a * b) `mod` 2 ^ 32
  ∧ demo_add a b = demo_add b a
  ∧ demo_multiply a b = demo_multiply b a
  ∧ demo_add (demo_add a b) c = demo_add a (demo_add b c)
  ∧ demo_multiply (demo_multiply a b) c = demo_multiply a (demo_multiply b c)
  ∧ demo_multiply a (demo_add b c)
    = demo_add (demo_multiply a b) (demo_multiply a c).
Proof.
  unfold demo_add, demo_multiply.
  split; [apply int32_range|]. split; [apply int32_range|].
  split; [apply int32_mod|]. split; [apply int32_mod|].
  split; [f_equal; lia|]. split; [f_equal; lia|].
  split; [|split].
  - apply int32_congr. rewrite int32_add_mod_l, int32_add_mod_r. f_equal. lia.
  - apply int32_congr. rewrite int32_mul_mod_l, int32_mul_mod_r. f_equal. lia.
  - rewrite int32_add. apply int32_congr. rewrite int32_mul_mod_r. f_equal. lia.
Qed.

Lemma fib_SS n : Reference.fib (S (S n)) = Reference.fib (S n) + Reference.fib n.
Proof. done. Qed.

Lemma fib_nonneg n : 0 ≤ Reference.fib n ∧ 0 ≤ Reference.fib (S n).
Proof.
  induction n as [|n [IH0 IH1]]; [done|].
  split; [done|]. rewrite fib_SS. lia.
Qed.

Lemma fib_mono n m : (n ≤ m)%nat → Reference.fib n ≤ Reference.fib m.
Proof.
  induction 1 as [|m _ IH]; [done|].
  etrans; [done|]. destruct m as [|m]; [done|].
  rewrite fib_SS. pose proof (fib_nonneg m). lia.
Qed.

(** Both components in one pass, to evaluate [fib] in linear time. *)
Lemma fib_pair_iter n :
  Nat.iter n (λ p : Z * Z, (p.2, p.1 + p.2)) (0, 1)
  = (Reference.fib n, Reference.fib (S n)).
Proof.
  induction n as [|n IH]; [done|].
  rewrite Nat.iter_succ, IH. cbn [fst snd]. rewrite fib_SS. f_equal. lia.
Qed.

Lemma fib_iter_fst n :
  (Nat.iter n (λ p : Z * Z, (p.2, p.1 + p.2)) (0, 1)).1 = Reference.fib n.
Proof. by rewrite fib_pair_iter. Qed.

Lemma fib_46 : Reference.fib 46 = 1836311903.
Proof. rewrite <-fib_iter_fst. vm_compute. reflexivity. Qed.

Lemma fibonacci_loop_spec n fuel : ∀ i,
  n < 2 ^ 31 - 1 → 2 ≤ i ≤ n + 1 → n - i + 2 ≤ Z.of_nat fuel →
  fibonacci_loop fuel n i
    (int32 (Reference.fib (Z.to_nat (i - 2))))
    (int32 (Reference.fib (Z.to_nat (i - 1))))
  = Some (int32 (Reference.fib (Z.to_nat n))).
Proof.
  induction fuel as [|fuel IH]; intros i Hn Hi Hfuel; [lia|].
  cbn [fibonacci_loop]. case_bool_decide as Hle.
  - cbv zeta. rewrite int32_add.
    replace (Reference.fib (Z.to_nat (i - 2)) + Reference.fib (Z.to_nat (i - 1)))
      with (Reference.fib (Z.to_nat (i + 1 - 1))).
    2:{ replace (Z.to_nat (i + 1 - 1)) with (S (S (Z.to_nat (i - 2)))) by lia.
        replace (Z.to_nat (i - 1)) with (S (Z.to_nat (i - 2))) by lia.
        rewrite fib_SS. lia. }
    replace (Z.to_nat (i - 1)) with (Z.to_nat (i + 1 - 2)) by lia.
    apply IH; lia.
  - by replace (i - 1) with n by lia.
Qed.

Lemma demo_fibonacci_is_wrapped_fib_aux (n : Z) (fuel : nat) :
  - 2 ^ 31 ≤ n < 2 ^ 31 - 1 → n ≤ Z.of_nat fuel →
  demo_fibonacci fuel n
  = Some (if bool_decide (n ≤ 0) then 0
          else int32 (Reference.fib (Z.to_nat n))).
Proof.
  intros Hn Hfuel. unfold demo_fibonacci.
  case_bool_decide as H0; [done|].
  case_bool_decide as H1; [by subst n|].
  apply (fibonacci_loop_spec n fuel 2); lia.
Qed.

(** X11: for every [n] below [2^31 - 1], [demo_fibonacci] returns 0 when
    [n <= 0] and otherwise the [n]-th Fibonacci number wrapped to 32 bits,
    once the loop has fuel for its [n] tests. *)
Theorem demo_fibonacci_is_wrapped_fib (n : Z) (fuel : nat) :
  - 2 ^ 31 ≤ n < 2 ^ 31 - 1 → n ≤ Z.of_nat fuel →
  demo_fibonacci fuel n
  = Some (if bool_decide (n ≤ 0) then 0
          else int32 (Reference.fib (Z.to_nat n))).
Proof. apply demo_fibonacci_is_wrapped_fib_aux. Qed.

Lemma demo_fibonacci_is_wrapped_fib_witness :
  demo_fibonacci 50 50
  = Some (if bool_decide (50 ≤ 0) then 0
          else int32 (Reference.fib (Z.to_nat 50))).
Proof. apply (demo_fibonacci_is_wrapped_fib 50 50); lia. Defined.

(** X12: for [0 <= n <= 46] no addition overflows: [demo_fibonacci] returns
    the [n]-th Fibonacci number itself. *)
Theorem demo_fibonacci_exact_up_to_46 (n : Z) (fuel : nat) :
  0 ≤ n ≤ 46 → n ≤ Z.of_nat fuel →
  demo_fibonacci fuel n = Some (Reference.fib (Z.to_nat n))
  ∧ 0 ≤ Reference.fib (Z.to_nat n) < 2 ^ 31.
Proof.
  intros Hn Hfuel.
  assert (0 ≤ Reference.fib (Z.to_nat n) < 2 ^ 31) as Hfib.
  { split; [apply fib_nonneg|].
    pose proof (fib_mono (Z.to_nat n) 46 ltac:(lia)) as Hle.
    rewrite fib_46 in Hle. lia. }
  split; [|done].
  rewrite demo_fibonacci_is_wrapped_fib_aux by lia.
  case_bool_decide.
  - by replace n with 0 by lia.
  - by rewrite int32_small by lia.
Qed.

Lemma demo_fibonacci_exact_up_to_46_witness :
  demo_fibonacci 30 30 = Some (Reference.fib (Z.to_nat 30))
  ∧ 0 ≤ Reference.fib (Z.to_nat 30) < 2 ^ 31.
Proof. apply (demo_fibonacci_exact_up_to_46 30 30); lia. Defined.

Lemma product_upto_fact (k : nat) :
  Reference.product_upto (Z.of_nat k) = Z.of_nat (fact k).
Proof.
  induction k as [|k IH]; [done|].
  destruct (decide (k = 0)%nat) as [->|Hk]; [done|].
  rewrite product_upto_step by lia.
  replace (Z.of_nat (S k) - 1) with (Z.of_nat k) by lia.
  rewrite IH. cbn [fact]. lia.
Qed.

Lemma product_upto_mono (n m : nat) :
  (n ≤ m)%nat →
  1 ≤ Reference.product_upto (Z.of_nat n)
  ∧ Reference.product_upto (Z.of_nat n) ≤ Reference.product_upto (Z.of_nat m).
Proof.
  intros Hnm. rewrite !product_upto_fact.
  pose proof (lt_O_fact n). pose proof (fact_le n m Hnm). lia.
Qed.

(** X14: for [0 <= n <= 20] no multiplication overflows: [demo_factorial]
    returns [n!]. *)
Theorem demo_factorial_exact_up_to_20 (n : Z) (fuel : nat) :
  0 ≤ n ≤ 20 → 1 ≤ Z.of_nat fuel → n ≤ Z.of_nat fuel →
  demo_factorial fuel n = Some (Z.of_nat (fact (Z.to_nat n)))
  ∧ Z.of_nat (fact (Z.to_nat n)) < 2 ^ 63.
Proof.
  intros Hn Hf1 Hfn.
  destruct (product_upto_mono (Z.to_nat n) 20 ltac:(lia)) as [H1 H20].
  assert (Reference.product_upto (Z.of_nat 20) = 2432902008176640000) as Hv
    by (vm_compute; reflexivity).
  rewrite Hv in H20. rewrite product_upto_fact in H1, H20.
  split; [|lia].
  unfold demo_factorial. rewrite bool_decide_false by lia.
  destruct (decide (n ≤ 1)) as [Hsmall|Hbig].
  - destruct fuel as [|fuel]; [lia|]. cbn [factorial_loop].
    rewrite bool_decide_false by lia.
    by assert (Z.to_nat n = 0 ∨ Z.to_nat n = 1)%nat as [-> | ->] by lia.
  - rewrite <-product_upto_fact, Z2Nat.id by lia.
    rewrite <-(int64_small (Reference.product_upto n)).
    2:{ rewrite <-(Z2Nat.id n), product_upto_fact by lia. lia. }
    rewrite <-(factorial_loop_spec n fuel 2) by lia.
    by rewrite product_upto_small, int64_small by lia.
Qed.

Lemma demo_factorial_exact_up_to_20_witness :
  demo_factorial 20 20 = Some (Z.of_nat (fact (Z.to_nat 20)))
  ∧ Z.of_nat (fact (Z.to_nat 20)) < 2 ^ 63.
Proof. apply (demo_factorial_exact_up_to_20 20 20); lia. Defined.

Lemma product_upto_divisible (k : nat) :
  (2 ^ 64 | Reference.product_upto (66 + Z.of_nat k)).
Proof.
  induction k as [|k IH].
  - apply Z.mod_divide; [lia|]. vm_compute. reflexivity.
  - rewrite product_upto_step by lia.
    replace (66 + Z.of_nat (S k) - 1) with (66 + Z.of_nat k) by lia.
    by apply Z.divide_mul_l.
Qed.

(** X15: from [n = 66] on (and below [2^31 - 1]) the wrapped product is 0:
    [demo_factorial] returns 0. *)
Theorem demo_factorial_zero_from_66 (n : Z) (fuel : nat) :
  66 ≤ n < 2 ^ 31 - 1 → n ≤ Z.of_nat fuel →
  demo_factorial fuel n = Some 0.
Proof.
  intros Hn Hfuel. unfold demo_factorial. rewrite bool_decide_false by lia.
  pose proof (factorial_loop_spec n fuel 2 ltac:(lia) ltac:(lia)) as Hloop.
  rewrite product_upto_small, int64_small in Hloop by lia. rewrite Hloop.
  destruct (product_upto_divisible (Z.to_nat (n - 66))) as [q Hq].
  replace (66 + Z.of_nat (Z.to_nat (n - 66))) with n in Hq by lia.
  rewrite Hq. unfold int64. f_equal.
  replace (q * 2 ^ 64 + 2 ^ 63) with (2 ^ 63 + q * 2 ^ 64) by lia.
  rewrite Z.mod_add, Z.mod_small by lia. lia.
Qed.

Lemma demo_factorial_zero_from_66_witness :
  demo_factorial 100 100 = Some 0.
Proof. apply (demo_factorial_zero_from_66 100 100); lia. Defined.

Lemma version_len_loop_spec (text rest : list Z) (fuel : nat) : ∀ k : nat,
  0 ∉ text → Z.of_nat (length text) < 2 ^ 31 →
  (k ≤ length text)%nat → (length text - k < fuel)%nat →
  version_len_loop fuel (text ++ 0 :: rest) (Z.of_nat k)
  = Some (Z.of_nat (length text)).
Proof.
  induction fuel as [|fuel IH]; intros k Hnz Hlen Hk Hfuel; [lia|].
  cbn [version_len_loop]. rewrite Nat2Z.id.
  destruct (decide (k = length text)) as [->|Hne].
  - rewrite list_lookup_total_middle by done.
    by rewrite bool_decide_false by (by intros []).
  - rewrite lookup_total_app_l by lia.
    rewrite bool_decide_true.
    2:{ intros H0. apply Hnz. rewrite <-H0.
        apply list_elem_of_lookup_total_2. lia. }
    rewrite int32_small by lia.
    replace (Z.of_nat k + 1) with (Z.of_nat (S k)) by lia.
    apply IH; [done|done|lia|lia].
Qed.

(** X17: [demo_version_len] returns 15, the number of characters of the
    string [demo_version] designates before its terminator. *)
Theorem demo_version_len_is_text_length (fuel : nat) :
  (16 ≤ fuel)%nat →
  demo_version_len fuel = Some 15
  ∧ demo_version = c_str (string_of_c_str demo_version)
  ∧ Z.of_nat (length (string_of_c_str demo_version)) = 15.
Proof.
  intros Hfuel. split; [|by split].
  unfold demo_version_len.
  change VERSION with
    ([115; 100; 110; 45; 100; 101; 109; 111; 45; 118; 49; 46; 48; 46; 48]
       ++ 0 :: []).
  rewrite (version_len_loop_spec _ _ fuel 0); [done| |cbn [length]; lia..].
  intros Hin. repeat (apply elem_of_cons in Hin as [Hin|Hin]; [discriminate Hin|]).
  by apply elem_of_nil in Hin.
Qed.

Lemma demo_version_len_is_text_length_witness :
  demo_version_len 16 = Some 15
  ∧ demo_version = c_str (string_of_c_str demo_version)
  ∧ Z.of_nat (length (string_of_c_str demo_version)) = 15.
Proof. apply (demo_version_len_is_text_length 16). lia. Defined.
